(** * chinese_segmenter.py: a shallow embedding and its verification

    The script reads UTF-8 text files, hands their content to the jieba
    segmenter, keeps the tokens made of Chinese characters only, and
    writes the distinct tokens, sorted, one per line.

    Python values are modelled as follows.
    - [str]: a list of Unicode code points ([Z]).
    - [set] of [str]: [gset pystr]; [sorted] is a merge sort of its
      elements for the code-point order of Python's string comparison.
    - [pathlib.Path]: the list of the path's components.
    - the file system: a finite map from paths to nodes; the console: the
      list of the messages printed so far.
    - exceptions: a state-and-error monad, [try]/[except] written out.
    - [jieba.cut], the external segmenter: a variable of the sections. *)

From Stdlib Require Import ZArith Ascii String.
From stdpp Require Import base list sorting gmap fin_sets pretty.

Local Open Scope Z_scope.

(** ** Strings *)

Definition codepoint : Type := Z.
Definition pystr : Type := list codepoint.

(** A literal of the source, as a list of code points (ASCII literals only). *)
Fixpoint lit (s : string) : pystr :=
  match s with
  | EmptyString => []
  | String a s' => Z.of_N (N_of_ascii a) :: lit s'
  end.

Definition LF : codepoint := 10.

(** [str.isspace] on one character, the test behind [str.strip()]: the
    characters of bidirectional type WS, B or S and of category Zs. *)
Definition is_space (c : codepoint) : bool :=
  ((9 <=? c) && (c <=? 13)) || ((28 <=? c) && (c <=? 32))
  || (c =? 133) || (c =? 160) || (c =? 5760)
  || ((8192 <=? c) && (c <=? 8202))
  || (c =? 8232) || (c =? 8233) || (c =? 8239) || (c =? 8287)
  || (c =? 12288).

Fixpoint lstrip (s : pystr) : pystr :=
  match s with
  | c :: s' => if is_space c then lstrip s' else s
  | [] => []
  end.

Definition rstrip (s : pystr) : pystr := reverse (lstrip (reverse s)).

(** [s.strip()] *)
Definition strip (s : pystr) : pystr := rstrip (lstrip s).

(** Python's [<=] on [str]: lexicographic on code points, a proper prefix
    is smaller. *)
Fixpoint str_leb (a b : pystr) : bool :=
  match a, b with
  | [], _ => true
  | _ :: _, [] => false
  | x :: a', y :: b' => (x <? y) || ((x =? y) && str_leb a' b')
  end.

Definition str_le (a b : pystr) : Prop := str_leb a b = true.
Definition str_lt (a b : pystr) : Prop := str_le a b /\ a <> b.

(** ** The regular expression of [is_chinese_word]

    The fragment of [re] the pattern uses, with Python's meaning when no
    flag is given: [^] holds at the start of the string, [$] holds at the
    end of the string and just before a newline that ends the string. *)

Inductive re_item : Type :=
| AT_BEGINNING                                  (* ^ *)
| AT_END                                        (* $ *)
| IN_REPEAT1 (ranges : list (codepoint * codepoint)). (* [a-bc-d...]+ *)

Definition in_range (c : codepoint) (r : codepoint * codepoint) : bool :=
  (fst r <=? c) && (c <=? snd r).

Definition in_class (ranges : list (codepoint * codepoint)) (c : codepoint) : bool :=
  existsb (in_range c) ranges.

Definition at_end (rest : pystr) : bool :=
  match rest with
  | [] => true
  | [c] => c =? LF
  | _ => false
  end.

(** [match_here p at_start rest]: the items [p] match a prefix of [rest];
    [at_start] tells whether [rest] is the whole subject string. The
    repetition tries every number (at least one) of characters of the
    class, so the search backtracks as [re] does. *)
Fixpoint match_here (p : list re_item) (at_start : bool) (rest : pystr) : bool :=
  match p with
  | [] => true
  | AT_BEGINNING :: p' => at_start && match_here p' at_start rest
  | AT_END :: p' => at_end rest && match_here p' at_start rest
  | IN_REPEAT1 ranges :: p' =>
      (fix more (s : pystr) : bool :=
         match s with
         | c :: s' => in_class ranges c && (more s' || match_here p' false s')
         | [] => false
         end) rest
  end.

(** [pattern.match(word)] as a truth value: a match anchored at index 0. *)
Definition re_match (p : list re_item) (word : pystr) : bool :=
  match_here p true word.

(** r'^[一-鿿㐀-䶿\U00020000-\U0002a6df]+$' *)
Definition chinese_ranges : list (codepoint * codepoint) :=
  [(0x4e00, 0x9fff); (0x3400, 0x4dbf); (0x20000, 0x2a6df)].

Definition chinese_pattern : list re_item :=
  [AT_BEGINNING; IN_REPEAT1 chinese_ranges; AT_END].

Definition is_chinese_word (word : pystr) : bool :=
  re_match chinese_pattern word.

(** What the documentation of [is_chinese_word] asks for. *)
Definition is_chinese_char (c : codepoint) : bool :=
  ((0x4e00 <=? c) && (c <=? 0x9fff))
  || ((0x3400 <=? c) && (c <=? 0x4dbf))
  || ((0x20000 <=? c) && (c <=? 0x2a6df)).

Definition pure_chinese (word : pystr) : Prop :=
  word <> [] /\ Forall (fun c => is_chinese_char c = true) word.

(** ** Paths, the file system and the console *)

Definition path : Type := list pystr.

(** What reading a regular file in text mode with [encoding='utf-8']
    gives: the decoded text, a decoding error, or a refusal to open. *)
Inductive file_data : Type :=
| Utf8Text (content : pystr)
| NotUtf8
| Unreadable.

(** A directory, a regular file, or anything else that exists (a socket,
    a device): [os.path.exists] holds for all three, [isfile] and [isdir]
    for one each. *)
Inductive node : Type :=
| Dir
| File (data : file_data)
| Other.

Inductive exn : Type :=
| UnicodeDecodeError
| FileNotFoundError
| FileExistsError
| IsADirectoryError
| NotADirectoryError
| PermissionError
| UnicodeEncodeError
| OSError.

Definition result : Type := path * nat * gset pystr.

(** One constructor for each [print] of the script. *)
Inductive message : Type :=
| MsgEmptyFile (file_path : path)                 (* 警告: 文件 .. 为空，跳过处理 *)
| MsgNoChineseWords (file_path : path)            (* 警告: 文件 .. 没有有效的中文词汇 *)
| MsgProcessed (file_path output_path : path)     (* 成功处理: .. -> .. *)
| MsgWordCount (n : nat)                          (*   提取中文词汇数: .. *)
| MsgNotUtf8 (file_path : path)                   (* 错误: .. 编码不是UTF-8，请检查文件编码 *)
| MsgNotUtf8Skipped (file_path : path)            (* 错误: .. 编码不是UTF-8，跳过处理 *)
| MsgException (file_path : path) (e : exn)       (* 错误: 处理文件 .. 时发生异常 *)
| MsgNoTextFiles (directory_path : path)          (* 警告: 在目录 .. 中未找到支持的文本文件 *)
| MsgFound (n : nat)                              (* 找到 .. 个文本文件 *)
| MsgMergeMode                                    (* 启用合并输出模式... *)
| MsgFileDone (file_path : path) (n : nat)        (* 处理完成: .. (词汇数: ..) *)
| MsgNothingExtracted                             (* 错误: 没有成功提取任何中文词汇 *)
| MsgMergeDone                                    (* 合并处理完成！ *)
| MsgSuccessful (ok total : nat)                  (* 成功处理文件数: ../.. *)
| MsgMergedWordCount (n : nat)                    (* 合并去重后总词汇数: .. *)
| MsgOutputFile (output_path : path)              (* 输出文件: .. *)
| MsgDuplicatesMerged (n : nat)                   (* 注意: 共发现 .. 个重名文件，已合并处理 *)
| MsgDuplicatesSeparate (n : nat)                 (* 注意: 共发现 .. 个重名文件，已分别保存 *)
| MsgDuplicate (name : pystr) (count : nat)       (*   ..: .. 个版本 *)
| MsgSameName (file_path : path)                  (* 注意: 发现重名文件 .. *)
| MsgNoSuchPath (p : path)                        (* 错误: 路径 '..' 不存在 *)
| MsgStartFile (p : path)                         (* 开始处理文件: .. *)
| MsgStartDirectory (p : path)                    (* 开始处理目录: .. *)
| MsgRecursive                                    (* 启用递归模式 *)
| MsgWillMerge                                    (* 启用合并输出模式（所有结果将合并到一个文件） *)
| MsgWillSeparate                                 (* 启用分散输出模式（每个文件单独输出） *)
| MsgMainMerged (n total_words : nat)              (* 处理完成！共处理 .. 个合并文件，中文词汇数: .. *)
| MsgSavedTo (output_path : path)                 (* 结果已保存到: .. *)
| MsgMainSeparate (n total_words : nat)            (* 处理完成！共处理 .. 个文件，总计中文词汇数: .. *)
| MsgAllSavedTo (output_dir : path)               (* 所有结果已保存到: ../ *)
| MsgNothingProcessed                             (* 没有成功处理任何文件 *)
| MsgNeitherFileNorDirectory (p : path).          (* 错误: '..' 不是文件也不是目录 *)

Record world : Type := World {
  fs : gmap path node;
  console : list message
}.

(** ** A state and exception monad *)

Inductive outcome (A : Type) : Type :=
| Val (a : A)
| Exc (e : exn).
Arguments Val {A} a.
Arguments Exc {A} e.

Definition M (A : Type) : Type := world -> outcome A * world.

Definition ret {A} (a : A) : M A := fun w => (Val a, w).

Definition bind {A B} (c : M A) (k : A -> M B) : M B :=
  fun w => match c w with
           | (Val a, w') => k a w'
           | (Exc e, w') => (Exc e, w')
           end.

Definition raise {A} (e : exn) : M A := fun w => (Exc e, w).

(** [try: c  except ... as e: h e]; what [c] did before it raised stays done. *)
Definition try_except {A} (c : M A) (h : exn -> M A) : M A :=
  fun w => match c w with
           | (Val a, w') => (Val a, w')
           | (Exc e, w') => h e w'
           end.

Definition get_fs : M (gmap path node) := fun w => (Val (fs w), w).

Definition put_fs (m : gmap path node) : M unit :=
  fun w => (Val tt, World m (console w)).

Definition print (msg : message) : M unit :=
  fun w => (Val tt, World (fs w) (console w ++ [msg])).

Declare Scope py_scope.
Delimit Scope py_scope with py.
Notation "x <- c ;; k" := (bind c (fun x => k))
  (at level 100, c at next level, right associativity) : py_scope.
Notation "c ;;; k" := (bind c (fun _ => k))
  (at level 100, right associativity) : py_scope.
Local Open Scope py_scope.

(** [for x in xs: st = body x st] *)
Fixpoint for_each {A S} (xs : list A) (body : A -> S -> M S) (st : S) : M S :=
  match xs with
  | [] => ret st
  | x :: xs' => st' <- body x st ;; for_each xs' body st'
  end.

(** ** File system operations *)

Definition path_exists (m : gmap path node) (p : path) : bool :=
  match m !! p with Some _ => true | None => false end.

Definition is_file (m : gmap path node) (p : path) : bool :=
  match m !! p with Some (File _) => true | _ => false end.

Definition is_dir (m : gmap path node) (p : path) : bool :=
  match m !! p with Some Dir => true | _ => false end.

(** [Path(p).name]: the last component, empty when there is none. *)
Definition name (p : path) : pystr := List.last p [].

(** [Path(p).parent] *)
Definition parent (p : path) : path := removelast p.

(** [d / n] for a one-component [n]. *)
Definition joinpath (d : path) (n : pystr) : path := d ++ [n].

(** Index of the last ['.'] of [s], as [str.rfind] gives it. *)
Fixpoint rfind_dot (s : pystr) : option nat :=
  match s with
  | [] => None
  | c :: s' =>
      match rfind_dot s' with
      | Some i => Some (S i)
      | None => if c =? 46 then Some O else None
      end
  end.

(** [Path(name).stem]: the name without its last suffix; a leading or a
    final dot starts no suffix. *)
Definition stem (n : pystr) : pystr :=
  match rfind_dot n with
  | Some i => if ((0 <? i) && (S i <? length n))%nat then take i n else n
  | None => n
  end.

(** [with open(p, 'r', encoding='utf-8') as f: f.read()] *)
Definition read_text (p : path) : M pystr :=
  fun w => match fs w !! p with
           | Some (File (Utf8Text s)) => (Val s, w)
           | Some (File NotUtf8) => (Exc UnicodeDecodeError, w)
           | Some (File Unreadable) => (Exc PermissionError, w)
           | Some Dir => (Exc IsADirectoryError, w)
           | Some Other => (Exc OSError, w)
           | None => (Exc FileNotFoundError, w)
           end.

(** The non-empty prefixes of [p], shortest first. *)
Definition ancestors_and_self (p : path) : list path :=
  map (fun n => take n p) (seq 1 (length p)).

Definition blocks_mkdir (m : gmap path node) (q : path) : bool :=
  match m !! q with
  | Some Dir | None => false
  | Some _ => true
  end.

Definition with_dirs (m : gmap path node) (l : list path) : gmap path node :=
  foldr (fun q acc => <[q := Dir]> acc) m l.

(** [Path(p).mkdir(parents=True, exist_ok=True)]: fails, creating nothing,
    when [p] or one of its ancestors exists and is not a directory. *)
Definition mkdir_p (p : path) : M unit :=
  m <- get_fs ;;
  match List.find (blocks_mkdir m) (ancestors_and_self p) with
  | Some q => raise (if decide (q = p) then FileExistsError else NotADirectoryError)
  | None => put_fs (with_dirs m (ancestors_and_self p))
  end.

Definition parent_ready (m : gmap path node) (p : path) : outcome unit :=
  if decide (parent p = []) then Val tt
  else match m !! parent p with
       | Some Dir => Val tt
       | Some _ => Exc NotADirectoryError
       | None => Exc FileNotFoundError
       end.

(** [open(p, 'w', encoding='utf-8')]: creates or truncates the file. *)
Definition open_w (p : path) : M unit :=
  m <- get_fs ;;
  match parent_ready m p with
  | Exc e => raise e
  | Val _ =>
      match m !! p with
      | None | Some (File (Utf8Text _)) | Some (File NotUtf8) =>
          put_fs (<[p := File (Utf8Text [])]> m)
      | Some (File Unreadable) => raise PermissionError
      | Some Dir => raise IsADirectoryError
      | Some Other => raise OSError
      end
  end.

(** [f.write(s)] on the file opened at [p]. *)
Definition f_write (p : path) (s : pystr) : M unit :=
  m <- get_fs ;;
  match m !! p with
  | Some (File (Utf8Text old)) => put_fs (<[p := File (Utf8Text (old ++ s))]> m)
  | _ => raise OSError
  end.

(** ** Dictionaries and sorting *)

(** [processed_files]: a [dict] from file names to counts, in insertion
    order. *)
Definition dict : Type := list (pystr * nat).

Fixpoint dict_get (d : dict) (k : pystr) (default_value : nat) : nat :=
  match d with
  | [] => default_value
  | (k', v) :: d' => if decide (k' = k) then v else dict_get d' k default_value
  end.

Fixpoint dict_contains (d : dict) (k : pystr) : bool :=
  match d with
  | [] => false
  | (k', _) :: d' => if decide (k' = k) then true else dict_contains d' k
  end.

Fixpoint dict_set (d : dict) (k : pystr) (v : nat) : dict :=
  match d with
  | [] => [(k, v)]
  | (k', v') :: d' => if decide (k' = k) then (k, v) :: d' else (k', v') :: dict_set d' k v
  end.

#[global] Instance str_le_dec (a b : pystr) : Decision (str_le a b) :=
  decide (str_leb a b = true).

(** [sorted(words)] for a set of strings. *)
Definition sorted (words : gset pystr) : list pystr :=
  merge_sort str_le (elements words).

(** [f"{counter}"] *)
Definition str_of_nat (n : nat) : pystr := lit (pretty n).

(** ** The script *)

(** [while output_path.exists(): output_path = candidate(counter); counter += 1],
    run for at most [fuel] tests of the condition. *)
Fixpoint while_exists (fuel : nat) (m : gmap path node) (candidate : nat -> path)
    (output_path : path) (counter : nat) : option path :=
  match fuel with
  | O => None
  | S fuel' =>
      if path_exists m output_path
      then while_exists fuel' m candidate (candidate counter) (S counter)
      else Some output_path
  end.

(** The loop with fuel that always suffices: one test more than there are
    paths in the file system ([while_exists_enough_fuel] and
    [while_exists_first_free] below; the default is never used). *)
Definition first_free (m : gmap path node) (candidate : nat -> path)
    (output_path : path) (counter : nat) : path :=
  default output_path (while_exists (S (size m)) m candidate output_path counter).

(** [f"{base_name}_segmented{extension}"], with [".txt"] for the extension *)
Definition segmented_name (base_name : pystr) : pystr :=
  base_name ++ lit "_segmented" ++ lit ".txt".

(** [f"{base_name}_segmented_{counter}{extension}"] *)
Definition segmented_name_n (base_name : pystr) (counter : nat) : pystr :=
  base_name ++ lit "_segmented_" ++ str_of_nat counter ++ lit ".txt".

Definition ensure_output_dir (output_path : path) : M path :=
  mkdir_p output_path ;;; ret output_path.

Definition get_unique_output_path (output_dir : path) (base_filename : path) : M path :=
  m <- get_fs ;;
  let base_name := stem (name base_filename) in
  let output_path := joinpath output_dir (segmented_name base_name) in
  ret (first_free m (fun counter => joinpath output_dir (segmented_name_n base_name counter))
         output_path 1).

(** [with open(output_path, 'w') as f: for word in words: f.write(word + '\n')] *)
Definition write_words (output_path : path) (words : list pystr) : M unit :=
  open_w output_path ;;;
  for_each words (fun word _ => f_write output_path (word ++ [LF])) tt.

(** One round of the loop of [extract_chinese_words]. *)
Definition extract_round (unique_words : gset pystr) (word : pystr) : gset pystr :=
  let word := strip word in
  match word with
  | [] => unique_words
  | _ => if is_chinese_word word then unique_words ∪ {[ word ]} else unique_words
  end.

Section Segmenter.

(** [jieba.cut]: the tokens of a text, in order. *)
Variable cut : pystr -> list pystr.

(** [list(s)] for a set [s] of paths: its elements, in the order in which
    the interpreter happens to enumerate the set. *)
Variable list_of_set : gset path -> list path.

Definition extract_chinese_words (content : pystr) : gset pystr :=
  match content with
  | [] => ∅
  | _ => foldl extract_round ∅ (cut content)
  end.

Definition process_file (file_path : path) (output_dir : path) : M (option result) :=
  try_except
    (raw <- read_text file_path ;;
     let content := strip raw in
     match content with
     | [] => print (MsgEmptyFile file_path) ;;; ret None
     | _ =>
         let unique_words := extract_chinese_words content in
         if decide (unique_words = ∅)
         then print (MsgNoChineseWords file_path) ;;; ret None
         else
           output_dir_path <- ensure_output_dir output_dir ;;
           output_path <- get_unique_output_path output_dir [name file_path] ;;
           write_words output_path (sorted unique_words) ;;;
           print (MsgProcessed file_path output_path) ;;;
           print (MsgWordCount (size unique_words)) ;;;
           ret (Some (output_path, size unique_words, unique_words))
     end)
    (fun e =>
       match e with
       | UnicodeDecodeError => print (MsgNotUtf8 file_path) ;;; ret None
       | _ => print (MsgException file_path e) ;;; ret None
       end).

(** The variables of the loop of [process_directory_merged]. *)
Record merged_state : Type := MergedState {
  all_unique_words : gset pystr;
  merged_processed_files : dict;
  successful_files : nat
}.

(** One round of the loop: the [try] statement for one file. *)
Definition merged_round (file_path : path) (st : merged_state) : M merged_state :=
  try_except
    (raw <- read_text file_path ;;
     let content := strip raw in
     match content with
     | [] => print (MsgEmptyFile file_path) ;;; ret st
     | _ =>
         let unique_words := extract_chinese_words content in
         if decide (unique_words = ∅)
         then print (MsgNoChineseWords file_path) ;;; ret st
         else
           print (MsgFileDone file_path (size unique_words)) ;;;
           let filename := name file_path in
           ret (MergedState
                  (all_unique_words st ∪ unique_words)
                  (dict_set (merged_processed_files st) filename
                     (dict_get (merged_processed_files st) filename 0 + 1)%nat)
                  (successful_files st + 1)%nat)
     end)
    (fun e =>
       match e with
       | UnicodeDecodeError => print (MsgNotUtf8Skipped file_path) ;;; ret st
       | _ => print (MsgException file_path e) ;;; ret st
       end).

Definition duplicate_files (processed_files : dict) : dict :=
  List.filter (fun kv => (1 <? snd kv)%nat) processed_files.

Definition report_duplicates (header : nat -> message) (processed_files : dict) : M unit :=
  let dups := duplicate_files processed_files in
  match dups with
  | [] => ret tt
  | _ =>
      print (header (length dups)) ;;;
      for_each dups (fun kv _ => print (MsgDuplicate (fst kv) (snd kv))) tt
  end.

(** [f"{dir_name}_merged_segmented.txt"] *)
Definition merged_name (dir_name : pystr) : pystr :=
  dir_name ++ lit "_merged_segmented.txt".

(** [f"{dir_name}_merged_segmented_{counter}.txt"] *)
Definition merged_name_n (dir_name : pystr) (counter : nat) : pystr :=
  dir_name ++ lit "_merged_segmented_" ++ str_of_nat counter ++ lit ".txt".

(** The end of [process_directory_merged], after its loop. *)
Definition merged_finish (directory_path : path) (text_files : list path)
    (output_dir : path) (st : merged_state) : M (list result) :=
  if decide (all_unique_words st = ∅)
  then print MsgNothingExtracted ;;; ret []
  else
    let dir_name := name directory_path in
    m <- get_fs ;;
    let output_path :=
      first_free m (fun counter => joinpath output_dir (merged_name_n dir_name counter))
        (joinpath output_dir (merged_name dir_name)) 1 in
    write_words output_path (sorted (all_unique_words st)) ;;;
    print MsgMergeDone ;;;
    print (MsgSuccessful (successful_files st) (length text_files)) ;;;
    print (MsgMergedWordCount (size (all_unique_words st))) ;;;
    print (MsgOutputFile output_path) ;;;
    report_duplicates MsgDuplicatesMerged (merged_processed_files st) ;;;
    ret [(output_path, size (all_unique_words st), all_unique_words st)].

Definition process_directory_merged (directory_path : path) (text_files : list path)
    (output_dir : path) : M (list result) :=
  print MsgMergeMode ;;;
  st <- for_each text_files merged_round (MergedState ∅ [] 0) ;;
  merged_finish directory_path text_files output_dir st.

(** One round of the loop of [process_directory_separate]. *)
Definition separate_round (output_dir : path) (file_path : path)
    (st : list result * dict) : M (list result * dict) :=
  let '(results, processed_files) := st in
  let filename := name file_path in
  (if dict_contains processed_files filename
   then print (MsgSameName file_path) else ret tt) ;;;
  r <- process_file file_path output_dir ;;
  match r with
  | Some res =>
      ret (results ++ [res],
           dict_set processed_files filename (dict_get processed_files filename 0 + 1)%nat)
  | None => ret (results, processed_files)
  end.

Definition process_directory_separate (text_files : list path) (output_dir : path)
    : M (list result) :=
  st <- for_each text_files (separate_round output_dir) ([], []) ;;
  report_duplicates MsgDuplicatesSeparate (snd st) ;;;
  ret (fst st).

Definition extensions : list pystr :=
  map lit [".txt"; ".md"; ".csv"; ".json"; ".xml"; ".html"; ".htm"]%string.

(** [directory_path.glob("*" + ext)], and with [recursive] the pattern
    ["**/*" + ext]: the paths below the directory (directly below it, when
    not recursive) whose name ends with [ext]. *)
Definition glob_match (directory_path : path) (recursive : bool) (ext : pystr)
    (p : path) : bool :=
  bool_decide (directory_path `prefix_of` p)
  && (if recursive then (length directory_path <? length p)%nat
      else (length p =? S (length directory_path))%nat)
  && bool_decide (ext `suffix_of` name p).

Definition glob (m : gmap path node) (directory_path : path) (recursive : bool)
    (ext : pystr) : list path :=
  List.filter (glob_match directory_path recursive ext) (map fst (map_to_list m)).

(** [list(set([f for f in text_files if f.is_file()]))] *)
Definition discover (m : gmap path node) (directory_path : path) (recursive : bool)
    : list path :=
  let text_files := flat_map (glob m directory_path recursive) extensions in
  list_of_set (list_to_set (List.filter (is_file m) text_files)).

Definition process_directory (directory_path : path) (output_dir : path)
    (recursive : bool) (merge_output : bool) : M (list result) :=
  m <- get_fs ;;
  let text_files := discover m directory_path recursive in
  match text_files with
  | [] => print (MsgNoTextFiles directory_path) ;;; ret []
  | _ =>
      print (MsgFound (length text_files)) ;;;
      ensure_output_dir output_dir ;;;
      if merge_output
      then process_directory_merged directory_path text_files output_dir
      else process_directory_separate text_files output_dir
  end.

(** The parsed command line. *)
Record args : Type := Args {
  args_path : path;
  args_output_dir : path;
  args_recursive : bool;
  args_no_merge : bool;
  args_verbose : bool
}.

(** [sys.exit(code)] *)
Definition sys_exit (code : Z) : M (option Z) := ret (Some code).

(** [main] after [parse_args]: the value is the argument of the
    [sys.exit] that ended it, if one did. [init_jieba] only configures the
    segmenter and has no counterpart here. *)
Definition main (a : args) : M (option Z) :=
  m <- get_fs ;;
  if negb (path_exists m (args_path a))
  then print (MsgNoSuchPath (args_path a)) ;;; sys_exit 1
  else
    if is_file m (args_path a)
    then
      print (MsgStartFile (args_path a)) ;;;
      r <- process_file (args_path a) (args_output_dir a) ;;
      match r with
      | None => sys_exit 1
      | Some _ => ret None
      end
    else if is_dir m (args_path a)
    then
      print (MsgStartDirectory (args_path a)) ;;;
      (if args_recursive a then print MsgRecursive else ret tt) ;;;
      let merge_output := negb (args_no_merge a) in
      (if merge_output then print MsgWillMerge else print MsgWillSeparate) ;;;
      results <- process_directory (args_path a) (args_output_dir a)
                   (args_recursive a) merge_output ;;
      match results with
      | [] => print MsgNothingProcessed ;;; sys_exit 1
      | (output_path, total_words, _) :: _ =>
          (if merge_output
           then
             print (MsgMainMerged (length results) total_words) ;;;
             print (MsgSavedTo output_path)
           else
             print (MsgMainSeparate (length results)
                      (list_sum (map (fun r => snd (fst r)) results))) ;;;
             print (MsgAllSavedTo (args_output_dir a))) ;;;
          ret None
      end
    else print (MsgNeitherFileNorDirectory (args_path a)) ;;; sys_exit 1.

(** The exit status of the process: that of [sys.exit], 0 when [main]
    returns, 1 when an exception reaches the top level. *)
Definition exit_status (o : outcome (option Z)) : Z :=
  match o with
  | Val (Some code) => code
  | Val None => 0
  | Exc _ => 1
  end.

End Segmenter.

(** ** The vocabulary of the properties

    What follows is not in the script: it names the situations, the paths
    and the files the properties below speak of. *)

(** The path the loop tests in its round [i], counted from 0. *)
Definition tried (output_path : path) (candidate : nat -> path) (counter i : nat) : path :=
  match i with
  | O => output_path
  | S i' => candidate (counter + i')%nat
  end.

(** Round [i] of the loop of [get_unique_output_path]. *)
Definition segmented_candidate (output_dir : path) (base_filename : path) (i : nat) : path :=
  let base_name := stem (name base_filename) in
  tried (joinpath output_dir (segmented_name base_name))
    (fun counter => joinpath output_dir (segmented_name_n base_name counter)) 1 i.

(** The text of a file of lines: each word followed by a newline. *)
Definition lines_text (words : list pystr) : pystr :=
  flat_map (fun word => word ++ [LF]) words.

(** The token [token] makes the loop add the word [w]. *)
Definition kept (w : pystr) (token : pystr) : Prop :=
  w = strip token /\ w <> [] /\ is_chinese_word w = true.

Section Vocabulary.

Variable cut : pystr -> list pystr.
Variable list_of_set : gset path -> list path.

(** The path [process_file] writes to, in the file system [m] it finds
    after making the output directory. *)
Definition output_path_of (m : gmap path node) (output_dir file_path : path) : path :=
  first_free m
    (fun counter => joinpath output_dir
                      (segmented_name_n (stem (name [name file_path])) counter))
    (joinpath output_dir (segmented_name (stem (name [name file_path])))) 1.

(** The file a message reports on, for the messages that tell how the
    processing of one file ended. *)
Definition about (msg : message) : option path :=
  match msg with
  | MsgEmptyFile f | MsgNoChineseWords f | MsgProcessed f _ | MsgNotUtf8 f
  | MsgNotUtf8Skipped f | MsgException f _ | MsgFileDone f _ => Some f
  | _ => None
  end.

Definition reports_success (msg : message) : bool :=
  match msg with
  | MsgProcessed _ _ | MsgFileDone _ _ => true
  | _ => false
  end.

(** The output path a report of success names. *)
Definition processed_path (msg : message) : option path :=
  match msg with
  | MsgProcessed _ output_path => Some output_path
  | _ => None
  end.

(** The lines of a text: each ends at its newline; what follows the last
    newline is given apart. *)
Fixpoint lines (s : pystr) : list pystr * pystr :=
  match s with
  | [] => ([], [])
  | c :: s' =>
      let '(ls, rest) := lines s' in
      if c =? LF then ([] :: ls, rest)
      else match ls with
           | [] => ([], c :: rest)
           | l :: ls' => ((c :: l) :: ls', rest)
           end
  end.

(** The file at [p] is a word list of the set [words]: its lines, each
    ended by a newline, are the elements of [words], each once, in strictly
    ascending order. *)
Definition word_list_file (m : gmap path node) (p : path) (words : gset pystr) : Prop :=
  exists ls,
    m !! p = Some (File (Utf8Text (lines_text ls)))
    /\ lines (lines_text ls) = (ls, [])
    /\ StronglySorted str_lt ls
    /\ NoDup ls
    /\ forall x, x ∈ ls <-> x ∈ words.

(** The result [r] is on disk in [m]: its file is the word list of its
    set, and its count is the size of the set. *)
Definition written (m : gmap path node) (r : result) : Prop :=
  snd (fst r) = size (snd r) /\ word_list_file m (fst (fst r)) (snd r).

(** Every node of [m] is still in [m']. *)
Definition keeps (m m' : gmap path node) : Prop :=
  forall q x, m !! q = Some x -> m' !! q = Some x.

(** [print(msg)] as a change of the world. *)
Definition printed (w : world) (msgs : list message) : world :=
  World (fs w) (console w ++ msgs).

(** What [process_file] can meet in [file_path]: bytes that are not UTF-8,
    a text that is empty once stripped, a text without Chinese words, a
    text with the words [words]; and an exception other than the decoding
    error, from reading the file or from creating the output directory. *)
Definition decode_error (w : world) (file_path : path) : Prop :=
  fs w !! file_path = Some (File NotUtf8).

Definition empty_content (w : world) (file_path : path) : Prop :=
  exists raw, fs w !! file_path = Some (File (Utf8Text raw)) /\ strip raw = [].

Definition no_chinese_words (w : world) (file_path : path) : Prop :=
  exists raw, fs w !! file_path = Some (File (Utf8Text raw))
    /\ strip raw <> [] /\ extract_chinese_words cut (strip raw) = ∅.

Definition has_words (w : world) (file_path : path) (words : gset pystr) : Prop :=
  exists raw, fs w !! file_path = Some (File (Utf8Text raw))
    /\ strip raw <> [] /\ words = extract_chinese_words cut (strip raw) /\ words <> ∅.

Definition unexpected_exception (w : world) (file_path output_dir : path) (e : exn) : Prop :=
  (read_text file_path w = (Exc e, w) /\ e <> UnicodeDecodeError)
  \/ ((exists words, has_words w file_path words) /\ mkdir_p output_dir w = (Exc e, w)).

(** The set of the result [r] was extracted from one of [files], read in
    a file system that still had every node of [m]. *)
Definition extracted_from (m : gmap path node) (files : list path) (r : result) : Prop :=
  exists f w1, f ∈ files /\ keeps m (fs w1) /\ has_words w1 f (snd r).

(** The path the merged word list goes to, in the file system [m]. *)
Definition merged_output_path (m : gmap path node) (directory_path output_dir : path)
    : path :=
  first_free m
    (fun counter => joinpath output_dir (merged_name_n (name directory_path) counter))
    (joinpath output_dir (merged_name (name directory_path))) 1.


(** The words a file brings to the merged set: those of its stripped
    content when it can be read, none otherwise. *)
Definition contribution (w : world) (file_path : path) : gset pystr :=
  match fs w !! file_path with
  | Some (File (Utf8Text raw)) => extract_chinese_words cut (strip raw)
  | _ => ∅
  end.

(** How one file is reported in merged mode: by one message about it,
    of success when the file brings words and of failure otherwise. *)
Definition merged_report (w : world) (f : path) (msg : message) : Prop :=
  about msg = Some f /\ (reports_success msg = true <-> contribution w f <> ∅).

(** What [main] prints before it calls [process_directory]. *)
Definition directory_banner (a : args) : list message :=
  [MsgStartDirectory (args_path a)]
  ++ (if args_recursive a then [MsgRecursive] else [])
  ++ [if negb (args_no_merge a) then MsgWillMerge else MsgWillSeparate].



(** [ensure_output_dir] can make [p]: neither [p] nor an ancestor of [p]
    exists without being a directory. *)
Definition creatable (m : gmap path node) (p : path) : Prop :=
  forall q, q ∈ ancestors_and_self p -> blocks_mkdir m q = false.

(** The files of [files] that bring words, in turn. *)
Definition with_words (w : world) (files : list path) : list path :=
  filter (fun f => contribution w f <> ∅) files.

(** The number of the files of [files] named [k]. *)
Definition name_count (files : list path) (k : pystr) : nat :=
  length (filter (fun f => name f = k) files).

(** [processed_files] after its update,
    [processed_files[filename] = processed_files.get(filename, 0) + 1],
    for each file of [files] in turn. *)
Definition count_names (d : dict) (files : list path) : dict :=
  foldl (fun d f => dict_set d (name f) (dict_get d (name f) 0 + 1)%nat) d files.

(** What [report_duplicates] prints. *)
Definition duplicate_report (header : nat -> message) (d : dict) : list message :=
  match duplicate_files d with
  | [] => []
  | dups => header (length dups) :: map (fun kv => MsgDuplicate (fst kv) (snd kv)) dups
  end.

End Vocabulary.

(** ** The script on a system that refuses

    In the operations above a call fails only for what the file system
    holds, and [print] never fails. A real system refuses more: the
    console may lack the characters of a message, a name may be too long,
    a directory may not be writable, the disk may be full, the segmenter
    may fail. In the module [Sys] the script is the same, line by line,
    but every call that leaves the interpreter first asks the system,
    which answers from the call and the state of the world. [argparse],
    which [main] calls first, is a variable like the segmenter. Signals
    and the exhaustion of memory are not modelled. *)

Inductive call : Type :=
| CallPrint (msg : message)               (* print(..) *)
| CallStat (p : path)                     (* os.path.exists, isfile, isdir *)
| CallInitJieba                           (* init_jieba() *)
| CallGlob (directory_path : path)        (* the globs and their is_file tests *)
| CallRead (p : path)                     (* open(p, 'r') and f.read() *)
| CallCut (content : pystr)               (* jieba.cut(content), consumed *)
| CallMkdir (p : path)                    (* os.mkdir(p) for a p that is absent *)
| CallExists (p : path)                   (* Path(p).exists() *)
| CallOpenW (p : path)                    (* open(p, 'w') *)
| CallWrite (p : path) (s : pystr).       (* f.write(s) on the file at p *)

(** Why a call is refused; none of the errors is a [UnicodeDecodeError]. *)
Inductive refusal : Type :=
| Unencodable      (* UnicodeEncodeError: the console lacks a character *)
| Denied           (* PermissionError *)
| Failed.          (* another OSError: name too long, no space left, ... *)

Definition error_of (r : refusal) : exn :=
  match r with
  | Unencodable => UnicodeEncodeError
  | Denied => PermissionError
  | Failed => OSError
  end.

(** [refuses c w]: the system refuses the call [c] in the state [w].
    [device p]: what reading [p] gives when [p] is neither a file nor a
    directory (a character device reads as text, a socket does not open). *)
Record system : Type := System {
  refuses : call -> world -> option refusal;
  device : path -> file_data
}.

(** What [parser.parse_args()] makes of a command line: the namespace,
    or the end of the process, with status 2 after a usage error and with
    status 0 after the help or the version. *)
Inductive parsed : Type :=
| Namespace (a : args)
| UsageError
| HelpOrVersion.

Module Sys.

Section Script.

Variable sys : system.
Variable parse_args : list pystr -> parsed.
Variable cut : pystr -> list pystr.
Variable list_of_set : gset path -> list path.

(** The question to the system before a call. *)
Definition guard (c : call) : M unit :=
  fun w => match refuses sys c w with
           | Some r => (Exc (error_of r), w)
           | None => (Val tt, w)
           end.

Definition print (msg : message) : M unit :=
  guard (CallPrint msg) ;;; print msg.

(** [with open(p, 'r', encoding='utf-8') as f: f.read()] *)
Definition read_text (p : path) : M pystr :=
  guard (CallRead p) ;;;
  fun w => match fs w !! p with
           | Some Other =>
               match device sys p with
               | Utf8Text s => (Val s, w)
               | NotUtf8 => (Exc UnicodeDecodeError, w)
               | Unreadable => (Exc OSError, w)
               end
           | _ => read_text p w
           end.

(** [os.mkdir(q)], which [Path.mkdir] calls for the directories that are
    not there, the outermost first. *)
Definition make_dir (q : path) : M unit :=
  m <- get_fs ;;
  match m !! q with
  | Some _ => ret tt
  | None => guard (CallMkdir q) ;;; put_fs (<[q := Dir]> m)
  end.

(** [Path(p).mkdir(parents=True, exist_ok=True)]: a directory made before
    a refusal stays. *)
Definition mkdir_p (p : path) : M unit :=
  m <- get_fs ;;
  match List.find (blocks_mkdir m) (ancestors_and_self p) with
  | Some q => raise (if decide (q = p) then FileExistsError else NotADirectoryError)
  | None => for_each (ancestors_and_self p) (fun q _ => make_dir q) tt
  end.

(** [Path(p).exists()] *)
Definition path_exists (p : path) : M bool :=
  guard (CallExists p) ;;;
  m <- get_fs ;;
  ret (path_exists m p).

(** [open(p, 'w', encoding='utf-8')] *)
Definition open_w (p : path) : M unit :=
  guard (CallOpenW p) ;;; open_w p.

(** [f.write(s)] on the file opened at [p]. *)
Definition f_write (p : path) (s : pystr) : M unit :=
  guard (CallWrite p s) ;;; f_write p s.

(** [while output_path.exists(): output_path = candidate(counter); counter += 1],
    run for at most [fuel] tests of the condition. *)
Fixpoint while_exists (fuel : nat) (candidate : nat -> path) (output_path : path)
    (counter : nat) : M path :=
  match fuel with
  | O => ret output_path
  | S fuel' =>
      found <- path_exists output_path ;;
      if found
      then while_exists fuel' candidate (candidate counter) (S counter)
      else ret output_path
  end.

Definition ensure_output_dir (output_path : path) : M path :=
  mkdir_p output_path ;;; ret output_path.

(** The loop has the fuel that always suffices: one test more than there
    are paths in the file system. *)
Definition get_unique_output_path (output_dir : path) (base_filename : path) : M path :=
  m <- get_fs ;;
  let base_name := stem (name base_filename) in
  let output_path := joinpath output_dir (segmented_name base_name) in
  while_exists (S (size m))
    (fun counter => joinpath output_dir (segmented_name_n base_name counter))
    output_path 1.

(** [with open(output_path, 'w') as f: for word in words: f.write(word + '\n')] *)
Definition write_words (output_path : path) (words : list pystr) : M unit :=
  open_w output_path ;;;
  for_each words (fun word _ => f_write output_path (word ++ [LF])) tt.

Definition extract_chinese_words (content : pystr) : M (gset pystr) :=
  match content with
  | [] => ret ∅
  | _ => guard (CallCut content) ;;; ret (extract_chinese_words cut content)
  end.

(** The [try] block of [process_file]. *)
Definition process_file_try (file_path : path) (output_dir : path) : M (option result) :=
  raw <- read_text file_path ;;
  let content := strip raw in
  match content with
  | [] => print (MsgEmptyFile file_path) ;;; ret None
  | _ =>
      unique_words <- extract_chinese_words content ;;
      if decide (unique_words = ∅)
      then print (MsgNoChineseWords file_path) ;;; ret None
      else
        output_dir_path <- ensure_output_dir output_dir ;;
        output_path <- get_unique_output_path output_dir [name file_path] ;;
        write_words output_path (sorted unique_words) ;;;
        print (MsgProcessed file_path output_path) ;;;
        print (MsgWordCount (size unique_words)) ;;;
        ret (Some (output_path, size unique_words, unique_words))
  end.

Definition process_file (file_path : path) (output_dir : path) : M (option result) :=
  try_except (process_file_try file_path output_dir)
    (fun e =>
       match e with
       | UnicodeDecodeError => print (MsgNotUtf8 file_path) ;;; ret None
       | _ => print (MsgException file_path e) ;;; ret None
       end).

(** The two [except] clauses of the loop of [process_directory_merged];
    the loop goes on with the variables as they are. *)
Definition merged_except (file_path : path) (st : merged_state) (e : exn)
    : M merged_state :=
  match e with
  | UnicodeDecodeError => print (MsgNotUtf8Skipped file_path) ;;; ret st
  | _ => print (MsgException file_path e) ;;; ret st
  end.

(** One round of the loop: the [try] statement for one file. The set and
    the counter are updated before the last [print] of the block, so an
    exception of that [print] is handled with the updated variables: the
    block is written in two parts, each under the two [except] clauses. *)
Definition merged_round (file_path : path) (st : merged_state) : M merged_state :=
  found <- try_except
             (raw <- read_text file_path ;;
              let content := strip raw in
              match content with
              | [] => print (MsgEmptyFile file_path) ;;; ret None
              | _ =>
                  unique_words <- extract_chinese_words content ;;
                  if decide (unique_words = ∅)
                  then print (MsgNoChineseWords file_path) ;;; ret None
                  else ret (Some unique_words)
              end)
             (fun e => merged_except file_path st e ;;; ret None) ;;
  match found with
  | None => ret st
  | Some unique_words =>
      let st1 := MergedState (all_unique_words st ∪ unique_words)
                   (merged_processed_files st) (successful_files st + 1)%nat in
      try_except
        (print (MsgFileDone file_path (size unique_words)) ;;;
         let filename := name file_path in
         ret (MergedState (all_unique_words st1)
                (dict_set (merged_processed_files st1) filename
                   (dict_get (merged_processed_files st1) filename 0 + 1)%nat)
                (successful_files st1)))
        (merged_except file_path st1)
  end.

Definition report_duplicates (header : nat -> message) (processed_files : dict) : M unit :=
  let dups := duplicate_files processed_files in
  match dups with
  | [] => ret tt
  | _ =>
      print (header (length dups)) ;;;
      for_each dups (fun kv _ => print (MsgDuplicate (fst kv) (snd kv))) tt
  end.

(** The end of [process_directory_merged], after its loop. *)
Definition merged_finish (directory_path : path) (text_files : list path)
    (output_dir : path) (st : merged_state) : M (list result) :=
  if decide (all_unique_words st = ∅)
  then print MsgNothingExtracted ;;; ret []
  else
    let dir_name := name directory_path in
    m <- get_fs ;;
    output_path <- while_exists (S (size m))
                     (fun counter => joinpath output_dir (merged_name_n dir_name counter))
                     (joinpath output_dir (merged_name dir_name)) 1 ;;
    write_words output_path (sorted (all_unique_words st)) ;;;
    print MsgMergeDone ;;;
    print (MsgSuccessful (successful_files st) (length text_files)) ;;;
    print (MsgMergedWordCount (size (all_unique_words st))) ;;;
    print (MsgOutputFile output_path) ;;;
    report_duplicates MsgDuplicatesMerged (merged_processed_files st) ;;;
    ret [(output_path, size (all_unique_words st), all_unique_words st)].

Definition process_directory_merged (directory_path : path) (text_files : list path)
    (output_dir : path) : M (list result) :=
  print MsgMergeMode ;;;
  st <- for_each text_files merged_round (MergedState ∅ [] 0) ;;
  merged_finish directory_path text_files output_dir st.

(** One round of the loop of [process_directory_separate]. *)
Definition separate_round (output_dir : path) (file_path : path)
    (st : list result * dict) : M (list result * dict) :=
  let '(results, processed_files) := st in
  let filename := name file_path in
  (if dict_contains processed_files filename
   then print (MsgSameName file_path) else ret tt) ;;;
  r <- process_file file_path output_dir ;;
  match r with
  | Some res =>
      ret (results ++ [res],
           dict_set processed_files filename (dict_get processed_files filename 0 + 1)%nat)
  | None => ret (results, processed_files)
  end.

Definition process_directory_separate (text_files : list path) (output_dir : path)
    : M (list result) :=
  st <- for_each text_files (separate_round output_dir) ([], []) ;;
  report_duplicates MsgDuplicatesSeparate (snd st) ;;;
  ret (fst st).

(** The collection of the text files: the globs and their [is_file] tests. *)
Definition discover (directory_path : path) (recursive : bool) : M (list path) :=
  guard (CallGlob directory_path) ;;;
  m <- get_fs ;;
  ret (discover list_of_set m directory_path recursive).

Definition process_directory (directory_path : path) (output_dir : path)
    (recursive : bool) (merge_output : bool) : M (list result) :=
  text_files <- discover directory_path recursive ;;
  match text_files with
  | [] => print (MsgNoTextFiles directory_path) ;;; ret []
  | _ =>
      print (MsgFound (length text_files)) ;;;
      ensure_output_dir output_dir ;;;
      if merge_output
      then process_directory_merged directory_path text_files output_dir
      else process_directory_separate text_files output_dir
  end.

(** What [os.path.exists], [isfile] and [isdir] see of a path: nothing
    when the system refuses to look. *)
Definition stat (p : path) : M (option node) :=
  fun w => (Val (match refuses sys (CallStat p) w with
                 | Some _ => None
                 | None => fs w !! p
                 end), w).

Definition init_jieba : M unit := guard CallInitJieba.

(** [main]: the value is the argument of the [sys.exit] that ended it,
    if one did; [argparse] ends the process itself. *)
Definition main (argv : list pystr) : M (option Z) :=
  match parse_args argv with
  | UsageError => sys_exit 2
  | HelpOrVersion => sys_exit 0
  | Namespace a =>
      seen <- stat (args_path a) ;;
      match seen with
      | None => print (MsgNoSuchPath (args_path a)) ;;; sys_exit 1
      | Some _ =>
          init_jieba ;;;
          seen <- stat (args_path a) ;;
          match seen with
          | Some (File _) =>
              print (MsgStartFile (args_path a)) ;;;
              r <- process_file (args_path a) (args_output_dir a) ;;
              match r with
              | None => sys_exit 1
              | Some _ => ret None
              end
          | Some Dir =>
              print (MsgStartDirectory (args_path a)) ;;;
              (if args_recursive a then print MsgRecursive else ret tt) ;;;
              let merge_output := negb (args_no_merge a) in
              (if merge_output then print MsgWillMerge else print MsgWillSeparate) ;;;
              results <- process_directory (args_path a) (args_output_dir a)
                           (args_recursive a) merge_output ;;
              match results with
              | [] => print MsgNothingProcessed ;;; sys_exit 1
              | (output_path, total_words, _) :: _ =>
                  (if merge_output
                   then
                     print (MsgMainMerged (length results) total_words) ;;;
                     print (MsgSavedTo output_path)
                   else
                     print (MsgMainSeparate (length results)
                              (list_sum (map (fun r => snd (fst r)) results))) ;;;
                     print (MsgAllSavedTo (args_output_dir a))) ;;;
                  ret None
              end
          | _ => print (MsgNeitherFileNorDirectory (args_path a)) ;;; sys_exit 1
          end
      end
  end.

End Script.

End Sys.

(** ** A small segmenter, for running the script on examples

    It cuts a text into its maximal runs of Chinese characters and of
    other characters. *)
Fixpoint demo_cut (s : pystr) : list pystr :=
  match s with
  | [] => []
  | c :: s' =>
      match demo_cut s' with
      | (d :: w) :: ws =>
          if Bool.eqb (is_chinese_char c) (is_chinese_char d)
          then (c :: d :: w) :: ws
          else [c] :: (d :: w) :: ws
      | _ => [[c]]
      end
  end.

(** "你好,hello,世界!你好" *)
Definition demo_text : pystr :=
  [0x4f60; 0x597d] ++ lit ",hello," ++ [0x4e16; 0x754c] ++ lit "!" ++ [0x4f60; 0x597d].

Definition demo_input : path := [lit "in"; lit "a.txt"].
Definition demo_output_dir : path := [lit "raw"].

Definition demo_world : world :=
  World (<[demo_input := File (Utf8Text demo_text)]> (<[[lit "in"] := Dir]> ∅)) [].

(** A directory with "测试 甲" in a.txt, "测试 乙" in b.txt and a file
    that is not UTF-8, c.txt; the output directory exists. *)
Definition demo_directory : path := [lit "d"].
Definition demo_a : path := [lit "d"; lit "a.txt"].
Definition demo_b : path := [lit "d"; lit "b.txt"].
Definition demo_c : path := [lit "d"; lit "c.txt"].

Definition demo_directory_world : world :=
  World (<[demo_a := File (Utf8Text ([0x6d4b; 0x8bd5] ++ lit " " ++ [0x7532]))]>
           (<[demo_b := File (Utf8Text ([0x6d4b; 0x8bd5] ++ lit " " ++ [0x4e59]))]>
              (<[demo_c := File NotUtf8]>
                 (<[demo_directory := Dir]> (<[demo_output_dir := Dir]> ∅))))) [].

(** A file of blanks, and the command line that names it. *)
Definition demo_blank : path := [lit "blank.txt"].

Definition demo_blank_world : world :=
  World (<[demo_blank := File (Utf8Text (lit "  " ++ [LF]))]> ∅) [].

Definition demo_blank_args : args := Args demo_blank demo_output_dir false false false.





Definition demo_merged_args : args := Args demo_directory demo_output_dir false false false.


(** A directory in which a.txt and sub/a.txt both read "测试 甲". *)
Definition demo_sub : path := [lit "d"; lit "sub"].
Definition demo_nested : path := [lit "d"; lit "sub"; lit "a.txt"].

Definition demo_nested_world : world :=
  World (<[demo_a := File (Utf8Text ([0x6d4b; 0x8bd5] ++ lit " " ++ [0x7532]))]>
           (<[demo_nested := File (Utf8Text ([0x6d4b; 0x8bd5] ++ lit " " ++ [0x7532]))]>
              (<[demo_sub := Dir]>
                 (<[demo_directory := Dir]> (<[demo_output_dir := Dir]> ∅))))) [].

(** A directory that holds a picture only. *)
Definition demo_pictures_world : world :=
  World (<[[lit "d"; lit "a.png"] := File NotUtf8]> (<[demo_directory := Dir]> ∅)) [].

(** The directory of the examples, with a file where the output
    directory should be. *)
Definition demo_blocked_world : world :=
  World (<[demo_output_dir := File NotUtf8]> (fs demo_directory_world)) [].

(** * Properties *)

(** ** The order on strings *)

Lemma str_leb_refl (a : pystr) : str_leb a a = true.
Proof.
  induction a as [|x a IH]; simpl; [done|].
  rewrite Z.eqb_refl, IH. by rewrite orb_true_r.
Qed.

Lemma str_leb_total (a b : pystr) : str_leb a b = true \/ str_leb b a = true.
Proof.
  revert b; induction a as [|x a IH]; intros [|y b]; simpl; auto.
  destruct (Z.lt_total x y) as [Hlt|[->|Hgt]].
  - left. apply Z.ltb_lt in Hlt. by rewrite Hlt.
  - rewrite Z.eqb_refl, !andb_true_l.
    destruct (IH b) as [->| ->]; rewrite orb_true_r; auto.
  - right. apply Z.ltb_lt in Hgt. by rewrite Hgt.
Qed.

Lemma str_leb_cons (x y : codepoint) (a b : pystr) :
  str_leb (x :: a) (y :: b) = true <-> x < y \/ (x = y /\ str_leb a b = true).
Proof.
  simpl. rewrite orb_true_iff, andb_true_iff, Z.ltb_lt, Z.eqb_eq. tauto.
Qed.

Lemma str_leb_trans (a b c : pystr) :
  str_leb a b = true -> str_leb b c = true -> str_leb a c = true.
Proof.
  revert b c; induction a as [|x a IH]; intros [|y b] [|z c]; try done.
  rewrite !str_leb_cons. intros [H1|[-> H1]] [H2|[-> H2]]; try (left; lia).
  right; split; [done|]. by apply (IH b).
Qed.

Lemma str_leb_antisym (a b : pystr) :
  str_leb a b = true -> str_leb b a = true -> a = b.
Proof.
  revert b; induction a as [|x a IH]; intros [|y b]; try done.
  rewrite !str_leb_cons. intros [H1|[-> H1]] [H2|[H2 H3]]; try lia.
  f_equal. by apply IH.
Qed.

#[global] Instance str_le_total : Total str_le.
Proof. intros a b. apply str_leb_total. Qed.

#[global] Instance str_le_trans : Transitive str_le.
Proof. intros a b c. apply str_leb_trans. Qed.

#[global] Instance str_le_refl : Reflexive str_le.
Proof. intros a. apply str_leb_refl. Qed.

#[global] Instance str_le_antisym : AntiSymm (=) str_le.
Proof. intros a b. apply str_leb_antisym. Qed.

(** ** [strip] *)

Lemma lstrip_head (s : pystr) (c : codepoint) (t : pystr) :
  lstrip s = c :: t -> is_space c = false.
Proof.
  induction s as [|x s IH]; simpl; [done|].
  destruct (is_space x) eqn:Hx; [done|]. by intros [= <- _].
Qed.

Lemma lstrip_snoc (s : pystr) (c : codepoint) :
  is_space c = false -> lstrip (s ++ [c]) = lstrip s ++ [c].
Proof.
  intros Hc. induction s as [|x s IH]; simpl.
  - by rewrite Hc.
  - by destruct (is_space x).
Qed.

Lemma rstrip_cons (c : codepoint) (t : pystr) :
  is_space c = false -> rstrip (c :: t) = c :: rstrip t.
Proof.
  intros Hc. unfold rstrip. rewrite reverse_cons, lstrip_snoc by done.
  by rewrite reverse_app.
Qed.

Lemma rstrip_last (s t : pystr) (c : codepoint) :
  rstrip s = t ++ [c] -> is_space c = false.
Proof.
  unfold rstrip. intros H.
  apply (f_equal reverse) in H. rewrite reverse_involutive, reverse_app in H.
  by apply lstrip_head in H.
Qed.

Lemma lstrip_idemp (s : pystr) : lstrip (lstrip s) = lstrip s.
Proof.
  induction s as [|x s IH]; simpl; [done|].
  destruct (is_space x) eqn:Hx; [done|]. simpl. by rewrite Hx.
Qed.

Lemma rstrip_idemp (s : pystr) : rstrip (rstrip s) = rstrip s.
Proof. unfold rstrip. by rewrite reverse_involutive, lstrip_idemp. Qed.

Lemma strip_idemp (s : pystr) : strip (strip s) = strip s.
Proof.
  unfold strip. destruct (lstrip s) as [|c t] eqn:Hs; [done|].
  pose proof (lstrip_head _ _ _ Hs) as Hc.
  rewrite rstrip_cons by done. simpl. rewrite Hc.
  by rewrite rstrip_cons, rstrip_idemp.
Qed.

Lemma strip_last (s t : pystr) (c : codepoint) :
  strip s = t ++ [c] -> is_space c = false.
Proof. apply rstrip_last. Qed.

Lemma strip_no_space (s : pystr) :
  Forall (fun c => is_space c = false) s -> strip s = s.
Proof.
  unfold strip. induction 1 as [|c s Hc Hs IH]; [done|].
  simpl. rewrite Hc, rstrip_cons by done. f_equal.
  destruct s as [|d s']; [done|].
  inversion Hs as [|?? Hd ?]; subst. simpl in IH. by rewrite Hd in IH.
Qed.

(** ** The pattern of [is_chinese_word] *)

Lemma in_class_chinese (c : codepoint) :
  in_class chinese_ranges c = is_chinese_char c.
Proof.
  unfold in_class, chinese_ranges, is_chinese_char, in_range. simpl.
  by rewrite orb_false_r, orb_assoc.
Qed.

Lemma chinese_not_space (c : codepoint) :
  is_chinese_char c = true -> is_space c = false.
Proof. unfold is_chinese_char, is_space. lia. Qed.

Lemma LF_is_space : is_space LF = true.
Proof. reflexivity. Qed.

Lemma at_end_spec (rest : pystr) :
  at_end rest = true <-> rest = [] \/ rest = [LF].
Proof.
  destruct rest as [|c [|d rest]]; simpl.
  - split; auto.
  - rewrite Z.eqb_eq. split; [intros ->; auto|]. by intros [|[= ->]].
  - split; [done|]. by intros [|].
Qed.

(** The matcher accepts exactly a non-empty run of Chinese characters,
    followed by nothing or by one final newline. *)
Lemma is_chinese_word_spec (word : pystr) :
  is_chinese_word word = true <->
  exists body, pure_chinese body /\ (word = body \/ word = body ++ [LF]).
Proof.
  unfold is_chinese_word, re_match, chinese_pattern, pure_chinese.
  cbn [match_here andb].
  induction word as [|c word IH].
  - split; [done|]. intros (body & [Hne _] & [Hw|Hw]); [by subst|].
    by destruct body.
  - rewrite in_class_chinese, andb_true_iff, orb_true_iff, andb_true_r, at_end_spec.
    split.
    + intros [Hc [Hmore|[->| ->]]].
      * apply IH in Hmore as (body & [Hne Hall] & Hw).
        exists (c :: body). split; [split; [done|by constructor]|].
        destruct Hw as [->| ->]; auto.
      * exists [c]. split; [split; [done|by repeat constructor]|auto].
      * exists [c]. split; [split; [done|by repeat constructor]|auto].
    + intros (body & [Hne Hall] & Hw).
      destruct body as [|b body]; [done|].
      assert (c = b /\ (word = body \/ word = body ++ [LF])) as [-> Hw'].
      { destruct Hw as [Hw|Hw]; simpl in Hw; injection Hw; auto. }
      inversion Hall as [|?? Hb Hall']; subst. split; [done|].
      destruct body as [|b' body].
      * right. simpl in Hw'. tauto.
      * left. apply IH. exists (b' :: body). split; [split; [done|done]|done].
Qed.

Lemma pure_chinese_is_chinese_word (word : pystr) :
  pure_chinese word -> is_chinese_word word = true.
Proof. intros H. apply is_chinese_word_spec. exists word. auto. Qed.

(** On a stripped word the matcher is exact. *)
Lemma is_chinese_word_stripped (s : pystr) :
  is_chinese_word (strip s) = true -> pure_chinese (strip s).
Proof.
  intros (body & Hbody & [->|Heq])%is_chinese_word_spec; [done|].
  apply strip_last in Heq. by rewrite LF_is_space in Heq.
Qed.

Lemma pure_chinese_no_space (word : pystr) :
  pure_chinese word -> Forall (fun c => is_space c = false) word.
Proof.
  intros [_ H]. eapply Forall_impl; [exact H|]. apply chinese_not_space.
Qed.

(** C1. [is_chinese_word] is documented as the test that a word is made
    of Chinese characters only, but it accepts the token "中\n": the [$] of
    the pattern also matches before a final newline, and U+000A lies in
    none of the three ranges. *)
Theorem is_chinese_word_accepts_final_newline :
  is_chinese_word [0x4e2d; LF] = true /\ ~ pure_chinese [0x4e2d; LF].
Proof.
  split; [reflexivity|].
  intros [_ H]. inversion H as [|?? _ H']; subst.
  inversion H' as [|?? Hlf _]; subst. discriminate Hlf.
Qed.

(** ** [extract_chinese_words] *)

Lemma elem_of_extract_round (acc : gset pystr) (token w : pystr) :
  w ∈ extract_round acc token <-> w ∈ acc \/ kept w token.
Proof.
  unfold extract_round, kept.
  destruct (strip token) as [|c s] eqn:Hs.
  - split; [auto|]. by intros [|(-> & ? & _)].
  - destruct (is_chinese_word (c :: s)) eqn:Hw.
    + rewrite elem_of_union, elem_of_singleton. split.
      * intros [?| ->]; auto.
      * intros [?|(-> & _)]; auto.
    + split; [auto|]. intros [|(-> & _ & H)]; [done|congruence].
Qed.

Lemma elem_of_extract_fold (tokens : list pystr) (acc : gset pystr) (w : pystr) :
  w ∈ foldl extract_round acc tokens <->
  w ∈ acc \/ exists token, token ∈ tokens /\ kept w token.
Proof.
  revert acc. induction tokens as [|t tokens IH]; intros acc; simpl.
  - split; [auto|]. intros [|(t & Ht & _)]; [done|]. by apply elem_of_nil in Ht.
  - rewrite IH, elem_of_extract_round. split.
    + intros [[|Hk]|(t' & Ht' & Hk)]; [by left|right..].
      * exists t. split; [apply list_elem_of_here|done].
      * exists t'. split; [by apply list_elem_of_further|done].
    + intros [|(t' & Ht' & Hk)]; [by left; left|].
      apply elem_of_cons in Ht' as [->|Ht']; [by left; right|].
      right. by exists t'.
Qed.

Section SegmenterFacts.

Variable cut : pystr -> list pystr.

(** The set [extract_chinese_words] returns, element by element. *)
Lemma elem_of_extract_chinese_words (content w : pystr) :
  w ∈ extract_chinese_words cut content <->
  content <> [] /\ exists token, token ∈ cut content /\ kept w token.
Proof.
  unfold extract_chinese_words. destruct content as [|c content].
  - split; [by intros ?%not_elem_of_empty|by intros []].
  - rewrite elem_of_extract_fold. split.
    + intros [?%not_elem_of_empty|H]; [done|]. by split.
    + intros [_ H]. by right.
Qed.

Lemma extract_chinese_words_pure (content w : pystr) :
  w ∈ extract_chinese_words cut content -> pure_chinese w.
Proof.
  intros (_ & token & _ & -> & _ & Hw)%elem_of_extract_chinese_words.
  by apply is_chinese_word_stripped.
Qed.

(** C9. Every word [extract_chinese_words] returns is non-empty, is its
    own stripped form, has no whitespace and no newline anywhere, consists
    of Chinese characters and passes [is_chinese_word]; an empty content
    gives the empty set. *)
Theorem extract_chinese_words_elements (content : pystr) :
  (forall w, w ∈ extract_chinese_words cut content ->
     w <> [] /\ strip w = w
     /\ Forall (fun c => is_space c = false) w /\ (LF ∉ w)
     /\ pure_chinese w /\ is_chinese_word w = true)
  /\ extract_chinese_words cut [] = ∅.
Proof.
  split; [|done].
  intros w Hw. pose proof (extract_chinese_words_pure _ _ Hw) as Hpure.
  pose proof (pure_chinese_no_space _ Hpure) as Hns.
  split; [apply Hpure|]. split; [by apply strip_no_space|].
  split; [done|]. split; [|split; [done|by apply pure_chinese_is_chinese_word]].
  intros Hin. rewrite Forall_forall in Hns. apply Hns in Hin.
  by rewrite LF_is_space in Hin.
Qed.

End SegmenterFacts.

Lemma extract_chinese_words_elements_witness :
  [0x4f60; 0x597d] ∈ extract_chinese_words demo_cut demo_text
  /\ strip [0x4f60; 0x597d] = [0x4f60; 0x597d]
  /\ is_chinese_word [0x4f60; 0x597d] = true.
Proof.
  assert ([0x4f60; 0x597d] ∈ extract_chinese_words demo_cut demo_text) as Hin.
  { vm_compute. reflexivity. }
  split; [exact Hin|].
  destruct (proj1 (extract_chinese_words_elements demo_cut demo_text) _ Hin)
    as (_ & Hstrip & _ & _ & _ & Hword).
  split; [exact Hstrip|exact Hword].
Defined.

(** ** The loop that looks for a free path *)

Lemma tried_shift (output_path : path) (candidate : nat -> path) (counter k : nat) :
  tried output_path candidate counter (S k)
  = tried (candidate counter) candidate (S counter) k.
Proof. destruct k as [|k]; simpl; [by rewrite Nat.add_0_r|f_equal; lia]. Qed.

Lemma while_exists_Some (fuel : nat) (m : gmap path node) (candidate : nat -> path)
    (output_path : path) (counter : nat) (q : path) :
  while_exists fuel m candidate output_path counter = Some q <->
  exists i, (i < fuel)%nat
    /\ q = tried output_path candidate counter i
    /\ path_exists m q = false
    /\ forall j, (j < i)%nat -> path_exists m (tried output_path candidate counter j) = true.
Proof.
  revert output_path counter.
  induction fuel as [|fuel IH]; intros output_path counter; simpl.
  - split; [done|]. intros (i & Hi & _). lia.
  - destruct (path_exists m output_path) eqn:Hex.
    + rewrite IH. split.
      * intros (i & Hi & -> & Hfree & Hbefore). exists (S i).
        rewrite tried_shift. split; [lia|]. split; [done|]. split; [done|].
        intros [|j] Hj; [done|]. rewrite tried_shift. apply Hbefore. lia.
      * intros ([|i] & Hi & -> & Hfree & Hbefore); [simpl in Hfree; congruence|].
        exists i. rewrite tried_shift in Hfree |- *.
        split; [lia|]. split; [done|]. split; [done|].
        intros j Hj. rewrite <- (tried_shift output_path). apply Hbefore. lia.
    + split.
      * intros [= <-]. exists O. split; [lia|]. split; [done|]. split; [done|].
        intros j Hj. lia.
      * intros ([|i] & Hi & -> & Hfree & Hbefore); [done|].
        specialize (Hbefore O ltac:(lia)). simpl in Hbefore. congruence.
Qed.

Lemma while_exists_None (fuel : nat) (m : gmap path node) (candidate : nat -> path)
    (output_path : path) (counter : nat) :
  while_exists fuel m candidate output_path counter = None ->
  forall i, (i < fuel)%nat -> path_exists m (tried output_path candidate counter i) = true.
Proof.
  revert output_path counter.
  induction fuel as [|fuel IH]; intros output_path counter; simpl; [lia|].
  destruct (path_exists m output_path) eqn:Hex; [|done].
  intros Hnone [|i] Hi; [done|].
  rewrite tried_shift. apply IH; [done|lia].
Qed.

Lemma path_exists_dom (m : gmap path node) (p : path) :
  path_exists m p = true <-> p ∈ dom m.
Proof.
  unfold path_exists. rewrite elem_of_dom. destruct (m !! p) as [n|].
  - split; [by eexists|done].
  - split; [done|]. by intros [? ?].
Qed.

(** A finite file system cannot hold more distinct paths than its size:
    when the tested paths are pairwise distinct, the loop stops within
    [S (size m)] tests. *)
Lemma while_exists_enough_fuel (m : gmap path node) (candidate : nat -> path)
    (output_path : path) (counter : nat) :
  (forall i j, tried output_path candidate counter i = tried output_path candidate counter j
               -> i = j) ->
  forall fuel, (size m < fuel)%nat ->
  is_Some (while_exists fuel m candidate output_path counter).
Proof.
  intros Hinj fuel Hfuel.
  destruct (while_exists fuel m candidate output_path counter) eqn:Hw; [by eexists|].
  exfalso. pose proof (while_exists_None _ _ _ _ _ Hw) as Hall.
  set (l := map (tried output_path candidate counter) (seq 0 fuel)).
  assert (NoDup l) as Hnd.
  { apply NoDup_fmap_2; [exact Hinj|apply NoDup_seq]. }
  assert (list_to_set l ⊆ dom m) as Hsub.
  { intros p Hp. apply elem_of_list_to_set in Hp.
    apply list_elem_of_fmap in Hp as (i & -> & Hi).
    apply elem_of_seq in Hi. apply path_exists_dom, Hall. lia. }
  apply subseteq_size in Hsub.
  rewrite size_list_to_set, size_dom in Hsub by done.
  unfold l in Hsub. rewrite length_map, length_seq in Hsub. lia.
Qed.

(** [first_free] is the first tested path that does not exist. *)
Lemma first_free_spec (m : gmap path node) (candidate : nat -> path)
    (output_path : path) (counter : nat) :
  (forall i j, tried output_path candidate counter i = tried output_path candidate counter j
               -> i = j) ->
  exists i, first_free m candidate output_path counter
            = tried output_path candidate counter i
    /\ (i <= size m)%nat
    /\ path_exists m (tried output_path candidate counter i) = false
    /\ forall j, (j < i)%nat -> path_exists m (tried output_path candidate counter j) = true.
Proof.
  intros Hinj. unfold first_free.
  destruct (while_exists_enough_fuel m candidate output_path counter Hinj (S (size m)))
    as [q Hq]; [lia|].
  rewrite Hq. simpl. apply while_exists_Some in Hq as (i & Hi & -> & Hfree & Hbefore).
  exists i. split; [done|]. split; [lia|]. split; done.
Qed.

(** More fuel changes nothing. *)
Lemma while_exists_first_free (m : gmap path node) (candidate : nat -> path)
    (output_path : path) (counter : nat) (fuel : nat) :
  (forall i j, tried output_path candidate counter i = tried output_path candidate counter j
               -> i = j) ->
  (size m < fuel)%nat ->
  while_exists fuel m candidate output_path counter
  = Some (first_free m candidate output_path counter).
Proof.
  intros Hinj Hfuel.
  destruct (first_free_spec m candidate output_path counter Hinj)
    as (i & -> & Hi & Hfree & Hbefore).
  apply while_exists_Some. exists i. split; [lia|]. split; done.
Qed.

(** ** The names of the output files *)

Lemma lit_inj (s t : string) : lit s = lit t -> s = t.
Proof.
  revert t. induction s as [|a s IH]; intros [|b t]; simpl; try done.
  intros [= Hab Hst]. apply N2Z.inj in Hab.
  f_equal; [|by apply IH].
  by rewrite <- (ascii_N_embedding a), <- (ascii_N_embedding b), Hab.
Qed.

Lemma str_of_nat_inj (i j : nat) : str_of_nat i = str_of_nat j -> i = j.
Proof. unfold str_of_nat. intros H%lit_inj. by apply (inj pretty) in H. Qed.

Lemma numbered_name_inj (prefix : pystr) (s : string) (i j : nat) :
  prefix ++ lit s ++ str_of_nat i ++ lit ".txt"
  = prefix ++ lit s ++ str_of_nat j ++ lit ".txt" -> i = j.
Proof.
  intros H. do 2 apply app_inv_head in H. apply app_inv_tail in H.
  by apply str_of_nat_inj.
Qed.

Lemma segmented_name_fresh (base_name : pystr) (counter : nat) :
  segmented_name base_name <> segmented_name_n base_name counter.
Proof.
  unfold segmented_name, segmented_name_n. intros H. apply app_inv_head in H.
  change (lit "_segmented_") with (lit "_segmented" ++ [95]) in H.
  rewrite <- app_assoc in H. apply app_inv_head in H. discriminate H.
Qed.

Lemma merged_name_fresh (dir_name : pystr) (counter : nat) :
  merged_name dir_name <> merged_name_n dir_name counter.
Proof.
  unfold merged_name, merged_name_n. intros H. apply app_inv_head in H.
  change (lit "_merged_segmented.txt") with (lit "_merged_segmented" ++ lit ".txt") in H.
  change (lit "_merged_segmented_") with (lit "_merged_segmented" ++ [95]) in H.
  rewrite <- app_assoc in H. apply app_inv_head in H. discriminate H.
Qed.

Lemma joinpath_inj (d : path) (a b : pystr) : joinpath d a = joinpath d b -> a = b.
Proof. unfold joinpath. intros H. apply app_inv_head in H. by injection H. Qed.

Lemma segmented_candidate_inj (output_dir base_filename : path) (i j : nat) :
  segmented_candidate output_dir base_filename i
  = segmented_candidate output_dir base_filename j -> i = j.
Proof.
  unfold segmented_candidate.
  destruct i as [|i], j as [|j]; simpl; intros H%joinpath_inj; [done|..].
  - by apply segmented_name_fresh in H.
  - symmetry in H. by apply segmented_name_fresh in H.
  - unfold segmented_name_n in H. by apply numbered_name_inj in H.
Qed.

Lemma merged_candidate_inj (output_dir : path) (dir_name : pystr) (i j : nat) :
  tried (joinpath output_dir (merged_name dir_name))
    (fun counter => joinpath output_dir (merged_name_n dir_name counter)) 1 i
  = tried (joinpath output_dir (merged_name dir_name))
      (fun counter => joinpath output_dir (merged_name_n dir_name counter)) 1 j
  -> i = j.
Proof.
  destruct i as [|i], j as [|j]; simpl; intros H%joinpath_inj; [done|..].
  - by apply merged_name_fresh in H.
  - symmetry in H. by apply merged_name_fresh in H.
  - unfold merged_name_n in H. by apply numbered_name_inj in H.
Qed.

Lemma get_unique_output_path_eq (output_dir base_filename : path) (w : world) :
  get_unique_output_path output_dir base_filename w
  = (Val (first_free (fs w)
            (fun counter => joinpath output_dir
                              (segmented_name_n (stem (name base_filename)) counter))
            (joinpath output_dir (segmented_name (stem (name base_filename)))) 1), w).
Proof. reflexivity. Qed.


(** ** File system operations *)

Lemma bind_val {A B} (c : M A) (k : A -> M B) (w w' : world) (a : A) :
  c w = (Val a, w') -> bind c k w = k a w'.
Proof. unfold bind. by intros ->. Qed.

Lemma bind_exc {A B} (c : M A) (k : A -> M B) (w w' : world) (e : exn) :
  c w = (Exc e, w') -> bind c k w = (Exc e, w').
Proof. unfold bind. by intros ->. Qed.

Lemma lookup_with_dirs (m : gmap path node) (l : list path) (q : path) :
  with_dirs m l !! q = if decide (q ∈ l) then Some Dir else m !! q.
Proof.
  induction l as [|p l IH]; simpl.
  - destruct (decide (q ∈ [])) as [H|]; [by apply elem_of_nil in H|done].
  - destruct (decide (p = q)) as [->|Hne].
    + rewrite lookup_insert_eq. by rewrite decide_True by apply list_elem_of_here.
    + rewrite lookup_insert_ne, IH by done.
      destruct (decide (q ∈ l)) as [Hin|Hnin].
      * by rewrite decide_True by by apply list_elem_of_further.
      * rewrite decide_False; [done|]. by intros [?|?]%elem_of_cons.
Qed.

Lemma mkdir_p_cases (p : path) (w : world) :
  (exists e, mkdir_p p w = (Exc e, w))
  \/ (mkdir_p p w = (Val tt, World (with_dirs (fs w) (ancestors_and_self p)) (console w))
      /\ forall q, q ∈ ancestors_and_self p -> blocks_mkdir (fs w) q = false).
Proof.
  unfold mkdir_p, bind, get_fs.
  destruct (List.find (blocks_mkdir (fs w)) (ancestors_and_self p)) as [q|] eqn:Hfind.
  - left. by eexists.
  - right. split; [done|]. intros q Hq. apply list_elem_of_In in Hq.
    by apply (List.find_none _ _ Hfind).
Qed.

(** [mkdir_p] keeps every node there is. *)
Lemma mkdir_p_keeps (p : path) (w w' : world) (u : unit) :
  mkdir_p p w = (Val u, w') ->
  console w' = console w
  /\ (forall q x, fs w !! q = Some x -> fs w' !! q = Some x)
  /\ (p <> [] -> fs w' !! p = Some Dir).
Proof.
  destruct (mkdir_p_cases p w) as [[e He]|[Heq Hfree]]; rewrite ?He, ?Heq; [done|].
  intros [= _ <-]. simpl. split; [done|]. split.
  - intros q x Hq. rewrite lookup_with_dirs.
    destruct (decide (q ∈ ancestors_and_self p)) as [Hin|]; [|done].
    specialize (Hfree q Hin). unfold blocks_mkdir in Hfree. rewrite Hq in Hfree.
    by destruct x.
  - intros Hne. rewrite lookup_with_dirs, decide_True; [done|].
    unfold ancestors_and_self. apply list_elem_of_fmap. exists (length p).
    split; [by rewrite firstn_all|]. apply elem_of_seq.
    destruct p; [done|simpl; lia].
Qed.

Lemma mkdir_p_raises (p : path) (w w' : world) (e : exn) :
  mkdir_p p w = (Exc e, w') -> w' = w.
Proof.
  destruct (mkdir_p_cases p w) as [[e' He]|[Heq _]]; rewrite ?He, ?Heq; congruence.
Qed.

Lemma parent_joinpath (d : path) (n : pystr) : parent (joinpath d n) = d.
Proof. unfold parent, joinpath. apply removelast_last. Qed.

Lemma parent_ready_dir (m : gmap path node) (p : path) :
  (parent p <> [] -> m !! parent p = Some Dir) -> parent_ready m p = Val tt.
Proof.
  unfold parent_ready. intros H. destruct (decide (parent p = [])); [done|].
  by rewrite H.
Qed.

(** The text [write_words] leaves in the file. *)
Lemma append_lines (p : path) (words : list pystr) (m : gmap path node)
    (c : list message) (old : pystr) :
  m !! p = Some (File (Utf8Text old)) ->
  for_each words (fun word _ => f_write p (word ++ [LF])) tt (World m c)
  = (Val tt, World (<[p := File (Utf8Text (old ++ lines_text words))]> m) c).
Proof.
  revert m old. induction words as [|word words IH]; intros m old Hp; simpl.
  - unfold ret. by rewrite app_nil_r, insert_id.
  - unfold bind at 1. unfold f_write at 1. unfold bind, get_fs. simpl. rewrite Hp.
    unfold put_fs. simpl.
    rewrite (IH _ (old ++ word ++ [LF])) by apply lookup_insert_eq.
    by rewrite insert_insert_eq, <- !app_assoc.
Qed.

Lemma write_words_new (p : path) (words : list pystr) (w : world) :
  parent_ready (fs w) p = Val tt ->
  fs w !! p = None ->
  write_words p words w
  = (Val tt, World (<[p := File (Utf8Text (lines_text words))]> (fs w)) (console w)).
Proof.
  intros Hparent Hp. unfold write_words.
  erewrite bind_val; last first.
  { unfold open_w, bind, get_fs. rewrite Hparent, Hp. reflexivity. }
  simpl. rewrite (append_lines _ _ _ _ []) by apply lookup_insert_eq.
  by rewrite insert_insert_eq.
Qed.

(** ** [process_file] *)

Lemma read_text_text (file_path : path) (w : world) (raw : pystr) :
  fs w !! file_path = Some (File (Utf8Text raw)) -> read_text file_path w = (Val raw, w).
Proof. unfold read_text. by intros ->. Qed.

Lemma read_text_cases (file_path : path) (w : world) :
  (exists raw, fs w !! file_path = Some (File (Utf8Text raw))
               /\ read_text file_path w = (Val raw, w))
  \/ (fs w !! file_path = Some (File NotUtf8)
      /\ read_text file_path w = (Exc UnicodeDecodeError, w))
  \/ (exists e, e <> UnicodeDecodeError /\ read_text file_path w = (Exc e, w)).
Proof.
  unfold read_text. destruct (fs w !! file_path) as [[|[raw| |]|]|] eqn:Hf.
  - right; right. by exists IsADirectoryError.
  - left. by exists raw.
  - right; left. done.
  - right; right. by exists PermissionError.
  - right; right. by exists OSError.
  - right; right. by exists FileNotFoundError.
Qed.

Lemma read_text_decode_error (file_path : path) (w w' : world) :
  read_text file_path w = (Exc UnicodeDecodeError, w') ->
  fs w !! file_path = Some (File NotUtf8).
Proof.
  unfold read_text. destruct (fs w !! file_path) as [[|[raw| |]|]|]; by intros [=].
Qed.

Section ProcessFile.

Variable cut : pystr -> list pystr.
Variable list_of_set : gset path -> list path.

Lemma process_file_decode_error (file_path output_dir : path) (w : world) :
  decode_error w file_path ->
  process_file cut file_path output_dir w = (Val None, printed w [MsgNotUtf8 file_path]).
Proof.
  unfold decode_error. intros Hf.
  unfold process_file, try_except, bind, read_text. by rewrite Hf.
Qed.

Lemma process_file_read_exception (file_path output_dir : path) (w : world) (e : exn) :
  read_text file_path w = (Exc e, w) -> e <> UnicodeDecodeError ->
  process_file cut file_path output_dir w
  = (Val None, printed w [MsgException file_path e]).
Proof.
  intros Hread Hne. unfold process_file, try_except.
  rewrite (bind_exc _ _ _ _ _ Hread). by destruct e.
Qed.

Lemma process_file_empty_content (file_path output_dir : path) (w : world) :
  empty_content w file_path ->
  process_file cut file_path output_dir w = (Val None, printed w [MsgEmptyFile file_path]).
Proof.
  intros (raw & Hf & Hempty). unfold process_file, try_except.
  rewrite (bind_val _ _ _ _ _ (read_text_text _ _ _ Hf)). by rewrite Hempty.
Qed.

Lemma process_file_no_chinese_words (file_path output_dir : path) (w : world) :
  no_chinese_words cut w file_path ->
  process_file cut file_path output_dir w
  = (Val None, printed w [MsgNoChineseWords file_path]).
Proof.
  intros (raw & Hf & Hne & Hnone). unfold process_file, try_except.
  rewrite (bind_val _ _ _ _ _ (read_text_text _ _ _ Hf)).
  destruct (strip raw) as [|c content] eqn:Hstrip; [done|].
  by rewrite decide_True by done.
Qed.

Lemma process_file_mkdir_exception (file_path output_dir : path) (w : world)
    (words : gset pystr) (e : exn) :
  has_words cut w file_path words -> mkdir_p output_dir w = (Exc e, w) ->
  process_file cut file_path output_dir w
  = (Val None, printed w [MsgException file_path e]).
Proof.
  intros (raw & Hf & Hne & -> & Hwords) Hmk. unfold process_file, try_except.
  rewrite (bind_val _ _ _ _ _ (read_text_text _ _ _ Hf)).
  destruct (strip raw) as [|c content] eqn:Hstrip; [done|].
  rewrite decide_False by done.
  unfold ensure_output_dir. rewrite (bind_exc _ _ w w e).
  - destruct (mkdir_p_cases output_dir w) as [[e' He']|[Heq _]]; [|congruence].
    assert (e' = e) as -> by congruence.
    unfold mkdir_p, bind, get_fs in Hmk.
    destruct (List.find _ _) as [q|]; [|done]. unfold raise in Hmk.
    destruct (decide (q = output_dir)); injection Hmk as <-; done.
  - by rewrite (bind_exc _ _ w w e).
Qed.

Lemma output_path_of_free (m : gmap path node) (output_dir file_path : path) :
  m !! output_path_of m output_dir file_path = None
  /\ parent (output_path_of m output_dir file_path) = output_dir.
Proof.
  unfold output_path_of.
  destruct (first_free_spec m
              (fun counter => joinpath output_dir
                                (segmented_name_n (stem (name [name file_path])) counter))
              (joinpath output_dir (segmented_name (stem (name [name file_path])))) 1
              (segmented_candidate_inj output_dir [name file_path]))
    as (i & -> & _ & Hfree & _).
  split.
  - unfold path_exists in Hfree. by destruct (m !! _).
  - destruct i; apply parent_joinpath.
Qed.

Lemma process_file_success (file_path output_dir : path) (w w1 : world)
    (words : gset pystr) :
  has_words cut w file_path words -> mkdir_p output_dir w = (Val tt, w1) ->
  process_file cut file_path output_dir w
  = (Val (Some (output_path_of (fs w1) output_dir file_path, size words, words)),
     World (<[output_path_of (fs w1) output_dir file_path
              := File (Utf8Text (lines_text (sorted words)))]> (fs w1))
           (console w ++ [MsgProcessed file_path
                            (output_path_of (fs w1) output_dir file_path);
                          MsgWordCount (size words)])).
Proof.
  intros (raw & Hf & Hne & -> & Hwords) Hmk. unfold process_file, try_except.
  rewrite (bind_val _ _ _ _ _ (read_text_text _ _ _ Hf)).
  destruct (strip raw) as [|c content] eqn:Hstrip; [done|].
  rewrite decide_False by done.
  destruct (mkdir_p_keeps _ _ _ _ Hmk) as (Hconsole & _ & Hdir).
  destruct (output_path_of_free (fs w1) output_dir file_path) as [Hfree Hparent].
  unfold ensure_output_dir.
  rewrite (bind_val _ _ w w1 output_dir) by by rewrite (bind_val _ _ w w1 tt).
  rewrite (bind_val _ _ w1 w1 (output_path_of (fs w1) output_dir file_path))
    by apply get_unique_output_path_eq.
  erewrite bind_val; last first.
  { apply write_words_new; [|done]. apply parent_ready_dir.
    rewrite Hparent. exact Hdir. }
  unfold bind, print, ret. simpl. rewrite Hconsole, <- app_assoc. done.
Qed.

Lemma process_file_unexpected (file_path output_dir : path) (w : world) (e : exn) :
  unexpected_exception cut w file_path output_dir e ->
  process_file cut file_path output_dir w
  = (Val None, printed w [MsgException file_path e]).
Proof.
  intros [[Hread Hne]|[[words Hwords] Hmk]].
  - by apply process_file_read_exception.
  - by apply (process_file_mkdir_exception _ _ _ words).
Qed.

(** The five situations [process_file] can be in, with what it does in each. *)
Lemma process_file_cases (file_path output_dir : path) (w : world) :
  decode_error w file_path
  \/ empty_content w file_path
  \/ no_chinese_words cut w file_path
  \/ (exists e, unexpected_exception cut w file_path output_dir e)
  \/ (exists words w1,
        has_words cut w file_path words
        /\ mkdir_p output_dir w = (Val tt, w1)
        /\ fst (process_file cut file_path output_dir w)
           = Val (Some (output_path_of (fs w1) output_dir file_path, size words, words))).
Proof.
  destruct (read_text_cases file_path w) as [(raw & Hf & _)|[[Hf _]|(e & Hne & Hread)]].
  - destruct (decide (strip raw = [])) as [Hempty|Hcontent].
    { right; left. by exists raw. }
    destruct (decide (extract_chinese_words cut (strip raw) = ∅)) as [Hnone|Hsome].
    { right; right; left. by exists raw. }
    assert (has_words cut w file_path (extract_chinese_words cut (strip raw))) as Hwords.
    { by exists raw. }
    right; right; right.
    destruct (mkdir_p_cases output_dir w) as [[e He]|[Hmk _]].
    + left. exists e. right. split; [by eexists|done].
    + right. eexists _, _. split; [exact Hwords|]. split; [exact Hmk|].
      by rewrite (process_file_success _ _ _ _ _ Hwords Hmk).
  - by left.
  - right; right; right; left. exists e. by left.
Qed.


Lemma main_missing (a : args) (w : world) :
  fs w !! args_path a = None ->
  main cut list_of_set a w = (Val (Some 1), printed w [MsgNoSuchPath (args_path a)]).
Proof.
  intros Hp. unfold main, bind at 1, get_fs. unfold path_exists. by rewrite Hp.
Qed.

Lemma main_other (a : args) (w : world) :
  fs w !! args_path a = Some Other ->
  main cut list_of_set a w = (Val (Some 1), printed w [MsgNeitherFileNorDirectory (args_path a)]).
Proof.
  intros Hp. unfold main, bind at 1, get_fs. unfold path_exists, is_file, is_dir.
  by rewrite Hp.
Qed.

Lemma main_file (a : args) (w : world) (data : file_data) :
  fs w !! args_path a = Some (File data) ->
  main cut list_of_set a w
  = bind (process_file cut (args_path a) (args_output_dir a))
      (fun r => match r with None => sys_exit 1 | Some _ => ret None end)
      (printed w [MsgStartFile (args_path a)]).
Proof.
  intros Hp. unfold main, bind at 1, get_fs. unfold path_exists, is_file.
  by rewrite Hp.
Qed.

(** C8. A file whose content is empty once stripped: [process_file]
    returns [None] and leaves the file system as it was (no output file, no
    output directory), and [main], given the path of that file, exits with
    status 1, the file system still unchanged. *)
Theorem empty_file_no_output (a : args) (w : world) :
  empty_content w (args_path a) ->
  fst (process_file cut (args_path a) (args_output_dir a) w) = Val None
  /\ fs (snd (process_file cut (args_path a) (args_output_dir a) w)) = fs w
  /\ exit_status (fst (main cut list_of_set a w)) = 1
  /\ fs (snd (main cut list_of_set a w)) = fs w.
Proof.
  intros Hempty. rewrite process_file_empty_content by done.
  split; [done|]. split; [done|].
  destruct Hempty as (raw & Hf & Hstrip).
  rewrite (main_file _ _ _ Hf).
  rewrite (bind_val _ _ _ _ None
             (process_file_empty_content _ _ (printed w [MsgStartFile (args_path a)])
                ltac:(by exists raw))).
  done.
Qed.

End ProcessFile.

(** ** Sorted word lists *)

Lemma lines_word (word rest : pystr) (ls : list pystr) (r : pystr) :
  LF ∉ word -> lines rest = (ls, r) -> lines (word ++ LF :: rest) = (word :: ls, r).
Proof.
  intros Hword Hrest. induction word as [|c word IH]; simpl.
  - by rewrite Hrest.
  - rewrite IH by (intros H; apply Hword; by apply list_elem_of_further).
    destruct (c =? LF) eqn:Hc; [|done].
    apply Z.eqb_eq in Hc as ->. exfalso. apply Hword, list_elem_of_here.
Qed.

(** Reading back the lines of a file of words without newlines. *)
Lemma lines_lines_text (words : list pystr) :
  Forall (fun word => LF ∉ word) words -> lines (lines_text words) = (words, []).
Proof.
  induction 1 as [|word words Hword _ IH]; [done|].
  unfold lines_text in *. simpl. rewrite <- app_assoc. simpl.
  by apply lines_word.
Qed.

Lemma StronglySorted_strict (l : list pystr) :
  StronglySorted str_le l -> NoDup l -> StronglySorted str_lt l.
Proof.
  induction 1 as [|x l Hsorted IH Hall]; intros Hnd; [constructor|].
  apply NoDup_cons in Hnd as [Hx Hnd]. constructor; [by apply IH|].
  rewrite Forall_forall in Hall |- *. intros y Hy. split; [by apply Hall|].
  by intros ->.
Qed.

Lemma sorted_Permutation (words : gset pystr) : sorted words ≡ₚ elements words.
Proof. apply merge_sort_Permutation. Qed.

Lemma elem_of_sorted (words : gset pystr) (x : pystr) : x ∈ sorted words <-> x ∈ words.
Proof. by rewrite sorted_Permutation, elem_of_elements. Qed.

Lemma NoDup_sorted (words : gset pystr) : NoDup (sorted words).
Proof. rewrite sorted_Permutation. apply NoDup_elements. Qed.

(** [sorted] lists the set in strictly ascending order. *)
Lemma sorted_strict (words : gset pystr) : StronglySorted str_lt (sorted words).
Proof.
  apply StronglySorted_strict; [|apply NoDup_sorted].
  apply StronglySorted_merge_sort; apply _.
Qed.

(** [sorted] depends on the set only: two lists with the same elements,
    each once, in ascending order, are equal. *)
Lemma strictly_sorted_unique (l1 l2 : list pystr) :
  StronglySorted str_lt l1 -> StronglySorted str_lt l2 ->
  (forall x, x ∈ l1 <-> x ∈ l2) -> l1 = l2.
Proof.
  intros H1. revert l2. induction H1 as [|x l1 Hs1 IH Hall1]; intros l2 H2 Heq.
  - destruct l2 as [|y l2]; [done|]. exfalso.
    apply (elem_of_nil y), Heq, list_elem_of_here.
  - destruct H2 as [|y l2 Hs2 Hall2].
    { exfalso. apply (elem_of_nil x), Heq, list_elem_of_here. }
    rewrite Forall_forall in Hall1, Hall2.
    assert (x = y) as ->.
    { assert (x ∈ y :: l2) as Hx by apply Heq, list_elem_of_here.
      assert (y ∈ x :: l1) as Hy by apply Heq, list_elem_of_here.
      apply elem_of_cons in Hx as [?|Hx]; [done|].
      apply elem_of_cons in Hy as [?|Hy]; [done|].
      apply str_leb_antisym; [apply (Hall1 y Hy)|apply (Hall2 x Hx)]. }
    f_equal. apply IH; [done|]. intros z. split; intros Hz.
    + assert (z ∈ y :: l2) as Hz' by by apply Heq, list_elem_of_further.
      apply elem_of_cons in Hz' as [->|?]; [|done].
      by destruct (Hall1 y Hz) as [_ ?].
    + assert (z ∈ y :: l1) as Hz' by by apply Heq, list_elem_of_further.
      apply elem_of_cons in Hz' as [->|?]; [|done].
      by destruct (Hall2 y Hz) as [_ ?].
Qed.

Lemma word_list_file_written (m : gmap path node) (p : path) (words : gset pystr) :
  (forall x, x ∈ words -> pure_chinese x) ->
  word_list_file (<[p := File (Utf8Text (lines_text (sorted words)))]> m) p words.
Proof.
  intros Hpure. exists (sorted words).
  split; [apply lookup_insert_eq|]. split.
  - apply lines_lines_text, Forall_forall. intros x Hx%elem_of_sorted Hlf.
    apply Hpure, pure_chinese_no_space in Hx. rewrite Forall_forall in Hx.
    apply Hx in Hlf. by rewrite LF_is_space in Hlf.
  - split; [apply sorted_strict|]. split; [apply NoDup_sorted|]. apply elem_of_sorted.
Qed.

Lemma word_list_file_kept (m m' : gmap path node) (p : path) (words : gset pystr) :
  (forall q x, m !! q = Some x -> m' !! q = Some x) ->
  word_list_file m p words -> word_list_file m' p words.
Proof.
  intros Hkeep (ls & Hp & H). exists ls. split; [by apply Hkeep|done].
Qed.

(** ** Merged mode *)

Lemma printed_printed (w : world) (a b : list message) :
  printed (printed w a) b = printed w (a ++ b).
Proof. unfold printed. simpl. by rewrite app_assoc. Qed.

Lemma printed_nil (w : world) : printed w [] = w.
Proof. destruct w. unfold printed. simpl. by rewrite app_nil_r. Qed.

Lemma print_printed (msg : message) (w : world) : print msg w = (Val tt, printed w [msg]).
Proof. reflexivity. Qed.

Lemma write_words_free (p : path) (words : list pystr) (w : world) :
  fs w !! p = None ->
  write_words p words w
  = match parent_ready (fs w) p with
    | Exc e => (Exc e, w)
    | Val _ => (Val tt, World (<[p := File (Utf8Text (lines_text words))]> (fs w))
                          (console w))
    end.
Proof.
  intros Hp. destruct (parent_ready (fs w) p) as [[]|e] eqn:Hparent.
  - by apply write_words_new.
  - unfold write_words, open_w, bind, get_fs. rewrite Hparent. by destruct w.
Qed.

Lemma report_duplicates_prints (header : nat -> message) (processed_files : dict)
    (w : world) :
  (forall n, about (header n) = None) ->
  exists msgs, omap about msgs = []
    /\ report_duplicates header processed_files w = (Val tt, printed w msgs).
Proof.
  intros Hheader. unfold report_duplicates.
  destruct (duplicate_files processed_files) as [|kv dups] eqn:Hdups.
  { exists []. by rewrite printed_nil. }
  generalize (kv :: dups). intros l. rewrite (bind_val _ _ _ _ tt (print_printed _ _)).
  assert (forall w', exists msgs, omap about msgs = []
            /\ for_each l (fun kv _ => print (MsgDuplicate kv.1 kv.2)) tt w'
               = (Val tt, printed w' msgs)) as Hloop.
  { induction l as [|x l IH]; intros w'; simpl.
    - exists []. by rewrite printed_nil.
    - rewrite (bind_val _ _ _ _ tt (print_printed _ _)).
      destruct (IH (printed w' [MsgDuplicate x.1 x.2])) as (msgs & Habout & ->).
      exists (MsgDuplicate x.1 x.2 :: msgs). by rewrite printed_printed. }
  destruct (Hloop (printed w [header (length l)])) as (msgs & Habout & ->).
  exists (header (length l) :: msgs). simpl. rewrite Hheader, printed_printed. done.
Qed.

Section Merged.

Variable cut : pystr -> list pystr.

Lemma contribution_printed (w : world) (msgs : list message) (f : path) :
  contribution cut (printed w msgs) f = contribution cut w f.
Proof. reflexivity. Qed.

Lemma contribution_unread (w w' : world) (f : path) (e : exn) :
  read_text f w = (Exc e, w') -> contribution cut w f = ∅.
Proof.
  unfold read_text, contribution.
  destruct (fs w !! f) as [[|[raw| |]|]|]; by intros [=].
Qed.


Lemma merged_round_spec (f : path) (st : merged_state) (w : world) :
  exists msg st',
    merged_round cut f st w = (Val st', printed w [msg])
    /\ merged_report cut w f msg
    /\ all_unique_words st' = all_unique_words st ∪ contribution cut w f.
Proof.
  unfold merged_round, try_except, merged_report.
  destruct (read_text_cases f w) as [(raw & Hf & Hread)|[[Hf Hread]|(e & Hne & Hread)]].
  - rewrite (bind_val _ _ _ _ _ Hread). unfold contribution. rewrite Hf.
    destruct (strip raw) as [|c content] eqn:Hstrip.
    { exists (MsgEmptyFile f), st. split; [done|]. split; [|by rewrite (right_id_L _ _)].
      split; [done|]. split; [done|]. by intros []. }
    destruct (decide (extract_chinese_words cut (c :: content) = ∅)) as [Hnone|Hsome].
    { exists (MsgNoChineseWords f), st. rewrite Hnone.
      split; [done|]. split; [|by rewrite (right_id_L _ _)].
      split; [done|]. split; [done|]. by intros []. }
    eexists (MsgFileDone f _), _. split; [reflexivity|]. split; [|done].
    split; [done|]. split; done.
  - rewrite (bind_exc _ _ _ _ _ Hread), (contribution_unread _ _ _ _ Hread).
    exists (MsgNotUtf8Skipped f), st. split; [done|].
    split; [|by rewrite (right_id_L _ _)]. split; [done|]. split; [done|]. by intros [].
  - rewrite (bind_exc _ _ _ _ _ Hread), (contribution_unread _ _ _ _ Hread).
    exists (MsgException f e), st. split; [by destruct e|].
    split; [|by rewrite (right_id_L _ _)]. split; [done|]. split; [done|]. by intros [].
Qed.

Lemma merged_loop_spec (files : list path) (st : merged_state) (w : world) :
  exists msgs st',
    for_each files (merged_round cut) st w = (Val st', printed w msgs)
    /\ Forall2 (merged_report cut w) files msgs
    /\ all_unique_words st'
       = all_unique_words st ∪ ⋃ (map (contribution cut w) files).
Proof.
  revert st w. induction files as [|f files IH]; intros st w; simpl.
  - exists [], st. rewrite printed_nil. split; [done|]. split; [constructor|].
    by rewrite (right_id_L _ _).
  - destruct (merged_round_spec f st w) as (msg & st1 & Hround & Hreport & Hwords).
    rewrite (bind_val _ _ _ _ _ Hround).
    destruct (IH st1 (printed w [msg])) as (msgs & st' & -> & Hreports & Hall).
    exists (msg :: msgs), st'. rewrite printed_printed. split; [done|].
    split; [by constructor|]. rewrite Hall, Hwords. by rewrite (assoc_L _ _).
Qed.

Lemma merged_output_path_free (m : gmap path node) (directory_path output_dir : path) :
  m !! merged_output_path m directory_path output_dir = None
  /\ parent (merged_output_path m directory_path output_dir) = output_dir.
Proof.
  unfold merged_output_path.
  destruct (first_free_spec m
              (fun counter => joinpath output_dir
                                (merged_name_n (name directory_path) counter))
              (joinpath output_dir (merged_name (name directory_path))) 1
              (merged_candidate_inj output_dir (name directory_path)))
    as (i & -> & _ & Hfree & _).
  split.
  - unfold path_exists in Hfree. by destruct (m !! _).
  - destruct i; apply parent_joinpath.
Qed.

Lemma merged_finish_spec (directory_path : path) (files : list path) (output_dir : path)
    (st : merged_state) (w : world) :
  exists tail, omap about tail = []
    /\ merged_finish directory_path files output_dir st w
       = if decide (all_unique_words st = ∅)
         then (Val [], printed w tail)
         else
           let p := merged_output_path (fs w) directory_path output_dir in
           match parent_ready (fs w) p with
           | Exc e => (Exc e, w)
           | Val _ =>
               (Val [(p, size (all_unique_words st), all_unique_words st)],
                World (<[p := File (Utf8Text (lines_text (sorted (all_unique_words st))))]>
                         (fs w))
                      (console w ++ tail))
           end.
Proof.
  unfold merged_finish.
  destruct (decide (all_unique_words st = ∅)) as [Hnone|Hsome].
  { by exists [MsgNothingExtracted]. }
  unfold bind at 1, get_fs. fold (merged_output_path (fs w) directory_path output_dir).
  set (p := merged_output_path (fs w) directory_path output_dir). simpl.
  destruct (merged_output_path_free (fs w) directory_path output_dir) as [Hfree _].
  fold p in Hfree. unfold bind at 1. rewrite (write_words_free _ _ _ Hfree).
  destruct (parent_ready (fs w) p) as [[]|e]; [|by exists []].
  set (w1 := World _ _).
  do 4 (unfold bind at 1; rewrite print_printed, ?printed_printed).
  destruct (report_duplicates_prints MsgDuplicatesMerged (merged_processed_files st)
              (printed w1 [MsgMergeDone;
                           MsgSuccessful (successful_files st) (length files);
                           MsgMergedWordCount (size (all_unique_words st));
                           MsgOutputFile p]))
    as (msgs & Habout & Hdup); [done|].
  simpl app. unfold bind at 1. rewrite Hdup, printed_printed.
  eexists. split; [|reflexivity]. done.
Qed.

(** What [process_directory_merged] does, in terms of the union of the
    files' words. *)
Lemma process_directory_merged_spec (directory_path : path) (files : list path)
    (output_dir : path) (w : world) :
  exists reports tail,
    Forall2 (merged_report cut w) files reports
    /\ omap about tail = []
    /\ process_directory_merged cut directory_path files output_dir w
       = if decide (⋃ (map (contribution cut w) files) = ∅)
         then (Val [], printed w (MsgMergeMode :: reports ++ tail))
         else
           let p := merged_output_path (fs w) directory_path output_dir in
           let words := ⋃ (map (contribution cut w) files) in
           match parent_ready (fs w) p with
           | Exc e => (Exc e, printed w (MsgMergeMode :: reports))
           | Val _ =>
               (Val [(p, size words, words)],
                World (<[p := File (Utf8Text (lines_text (sorted words)))]> (fs w))
                      (console w ++ MsgMergeMode :: reports ++ tail))
           end.
Proof.
  unfold process_directory_merged.
  rewrite (bind_val _ _ _ _ tt (print_printed _ _)).
  destruct (merged_loop_spec files (MergedState ∅ [] 0) (printed w [MsgMergeMode]))
    as (reports & st & Hloop & Hreports & Hwords).
  rewrite (bind_val _ _ _ _ _ Hloop), printed_printed.
  simpl in Hwords. rewrite (left_id_L _ _) in Hwords.
  destruct (merged_finish_spec directory_path files output_dir st
              (printed w ([MsgMergeMode] ++ reports))) as (tail & Htail & ->).
  exists reports, tail. split; [exact Hreports|]. split; [done|].
  rewrite Hwords. simpl.
  change (⋃ map (contribution cut (printed w [MsgMergeMode])) files)
    with (⋃ map (contribution cut w) files).
  destruct (decide (⋃ map (contribution cut w) files = ∅)).
  - by rewrite printed_printed.
  - destruct (parent_ready _ _) as [[]|e]; [|done].
    by rewrite <- app_assoc.
Qed.

Lemma elem_of_contributions (files : list path) (w : world) (x : pystr) :
  x ∈ ⋃ (map (contribution cut w) files) <->
  exists f raw, f ∈ files /\ fs w !! f = Some (File (Utf8Text raw))
    /\ x ∈ extract_chinese_words cut (strip raw).
Proof.
  rewrite elem_of_union_list. split.
  - intros (X & HX & Hx). apply list_elem_of_fmap in HX as (f & -> & Hf).
    unfold contribution in Hx.
    destruct (fs w !! f) as [[|[raw| |]|]|] eqn:Hlook;
      try by apply not_elem_of_empty in Hx.
    by exists f, raw.
  - intros (f & raw & Hf & Hlook & Hx). exists (contribution cut w f).
    split; [apply list_elem_of_fmap; by exists f|].
    unfold contribution. by rewrite Hlook.
Qed.

(** The result and the file system after a merged run depend on the
    files through the union of their words only. *)
Lemma process_directory_merged_union (directory_path : path) (files1 files2 : list path)
    (output_dir : path) (w : world) :
  ⋃ (map (contribution cut w) files1) = ⋃ (map (contribution cut w) files2) ->
  fst (process_directory_merged cut directory_path files1 output_dir w)
  = fst (process_directory_merged cut directory_path files2 output_dir w)
  /\ fs (snd (process_directory_merged cut directory_path files1 output_dir w))
     = fs (snd (process_directory_merged cut directory_path files2 output_dir w)).
Proof.
  intros Hunion.
  destruct (process_directory_merged_spec directory_path files1 output_dir w)
    as (reports1 & tail1 & _ & _ & ->).
  destruct (process_directory_merged_spec directory_path files2 output_dir w)
    as (reports2 & tail2 & _ & _ & ->).
  rewrite Hunion.
  destruct (decide (⋃ map (contribution cut w) files2 = ∅)); [done|].
  simpl. by destruct (parent_ready _ _) as [[]|e].
Qed.

Lemma contributions_Permutation (files1 files2 : list path) (w1 w2 : world) :
  map (contribution cut w1) files1 ≡ₚ map (contribution cut w2) files2 ->
  ⋃ (map (contribution cut w1) files1) = ⋃ (map (contribution cut w2) files2).
Proof.
  intros Hperm. apply set_eq. intros x. rewrite !elem_of_union_list.
  split; intros (X & HX & Hx); exists X; split; try done.
  - by rewrite <- Hperm.
  - by rewrite Hperm.
Qed.

Lemma contributions_pure (files : list path) (w : world) (x : pystr) :
  x ∈ ⋃ (map (contribution cut w) files) -> pure_chinese x.
Proof.
  intros (f & raw & _ & _ & Hx)%elem_of_contributions.
  by apply extract_chinese_words_pure in Hx.
Qed.

(** What a merged run that returns has written. *)
Lemma process_directory_merged_result (directory_path : path) (files : list path)
    (output_dir : path) (w : world) (results : list result) :
  fst (process_directory_merged cut directory_path files output_dir w) = Val results ->
  if decide (⋃ (map (contribution cut w) files) = ∅)
  then results = []
       /\ fs (snd (process_directory_merged cut directory_path files output_dir w)) = fs w
  else
    let p := merged_output_path (fs w) directory_path output_dir in
    let words := ⋃ (map (contribution cut w) files) in
    results = [(p, size words, words)]
    /\ fs w !! p = None
    /\ fs (snd (process_directory_merged cut directory_path files output_dir w))
       = <[p := File (Utf8Text (lines_text (sorted words)))]> (fs w)
    /\ word_list_file
         (fs (snd (process_directory_merged cut directory_path files output_dir w)))
         p words.
Proof.
  destruct (process_directory_merged_spec directory_path files output_dir w)
    as (reports & tail & _ & _ & ->).
  destruct (decide (⋃ map (contribution cut w) files = ∅)).
  { simpl. by intros [= <-]. }
  simpl. destruct (parent_ready _ _) as [[]|e]; [|done].
  simpl. intros [= <-]. split; [done|].
  split; [apply merged_output_path_free|]. split; [done|].
  apply word_list_file_written, contributions_pure.
Qed.

(** C3. The set a merged run writes and returns is the union, over the
    files, of the words extracted from each file's stripped content (a
    file that cannot be read brings none); the run writes it as soon as it
    is not empty and the output directory is there; and the files that
    bring no word can be left out without changing the result or the file
    system. *)
Theorem merged_words_are_union (directory_path : path) (files : list path)
    (output_dir : path) (w : world) :
  (forall x, x ∈ ⋃ (map (contribution cut w) files) <->
     exists f raw, f ∈ files /\ fs w !! f = Some (File (Utf8Text raw))
       /\ x ∈ extract_chinese_words cut (strip raw))
  /\ (forall results,
       fst (process_directory_merged cut directory_path files output_dir w) = Val results ->
       if decide (⋃ (map (contribution cut w) files) = ∅)
       then results = []
       else exists p,
         results = [(p, size (⋃ (map (contribution cut w) files)),
                     ⋃ (map (contribution cut w) files))]
         /\ fs w !! p = None
         /\ word_list_file
              (fs (snd (process_directory_merged cut directory_path files output_dir w)))
              p (⋃ (map (contribution cut w) files)))
  /\ (⋃ (map (contribution cut w) files) <> ∅ ->
      (output_dir <> [] -> fs w !! output_dir = Some Dir) ->
      exists p,
        fst (process_directory_merged cut directory_path files output_dir w)
        = Val [(p, size (⋃ (map (contribution cut w) files)),
                ⋃ (map (contribution cut w) files))])
  /\ (forall files',
       (forall f, f ∈ files' <-> f ∈ files /\ contribution cut w f <> ∅) ->
       fst (process_directory_merged cut directory_path files' output_dir w)
       = fst (process_directory_merged cut directory_path files output_dir w)
       /\ fs (snd (process_directory_merged cut directory_path files' output_dir w))
          = fs (snd (process_directory_merged cut directory_path files output_dir w))).
Proof.
  split; [apply elem_of_contributions|]. split; [|split].
  - intros results Hres. apply process_directory_merged_result in Hres.
    destruct (decide (⋃ map (contribution cut w) files = ∅)); [apply Hres|].
    destruct Hres as (-> & Hfree & _ & Hfile). by eexists.
  - intros Hsome Hdir.
    destruct (process_directory_merged_spec directory_path files output_dir w)
      as (reports & tail & _ & _ & ->).
    rewrite decide_False by done. simpl.
    rewrite parent_ready_dir; [by eexists|].
    by rewrite (proj2 (merged_output_path_free _ _ _)).
  - intros files' Hfiles'. apply process_directory_merged_union.
    apply set_eq. intros x. rewrite !elem_of_union_list. split.
    + intros (X & HX & Hx). exists X. split; [|done].
      apply list_elem_of_fmap in HX as (f & -> & Hf).
      apply list_elem_of_fmap. exists f. split; [done|]. by apply Hfiles'.
    + intros (X & HX & Hx). exists X. split; [|done].
      apply list_elem_of_fmap in HX as (f & -> & Hf).
      apply list_elem_of_fmap. exists f. split; [done|]. apply Hfiles'.
      split; [done|]. intros Hempty. rewrite Hempty in Hx.
      by apply not_elem_of_empty in Hx.
Qed.

End Merged.

(** ** Separate mode *)

Lemma keeps_refl (m : gmap path node) : keeps m m.
Proof. by intros q x. Qed.

Lemma keeps_trans (m1 m2 m3 : gmap path node) : keeps m1 m2 -> keeps m2 m3 -> keeps m1 m3.
Proof. intros H1 H2 q x Hq. by apply H2, H1. Qed.

Lemma keeps_insert_new (m : gmap path node) (p : path) (x : node) :
  m !! p = None -> keeps m (<[p := x]> m).
Proof.
  intros Hp q y Hq. rewrite lookup_insert_ne; [done|]. intros ->. congruence.
Qed.

Lemma written_kept (m m' : gmap path node) (r : result) :
  keeps m m' -> written m r -> written m' r.
Proof. intros Hkeep [Hn Hfile]. split; [done|]. by eapply word_list_file_kept. Qed.

Section Separate.

Variable cut : pystr -> list pystr.

(** What a call of [process_file] leaves behind: it returns, has printed
    one report about the file, has kept every node, and either has changed
    nothing in the file system or has written a new word list. *)
Lemma process_file_summary (f output_dir : path) (w : world) :
  exists r w' msgs,
    process_file cut f output_dir w = (Val r, w')
    /\ console w' = console w ++ msgs
    /\ omap about msgs = [f]
    /\ length (List.filter reports_success msgs) = length (option_list r)
    /\ omap processed_path msgs = map (fun res => fst (fst res)) (option_list r)
    /\ keeps (fs w) (fs w')
    /\ match r with
       | None => fs w' = fs w
       | Some res =>
           fs w !! fst (fst res) = None /\ written (fs w') res
           /\ has_words cut w f (snd res)
       end.
Proof.
  destruct (process_file_cases cut f output_dir w)
    as [H|[H|[H|[[e H]|(words & w1 & Hwords & Hmk & _)]]]].
  - rewrite process_file_decode_error by done.
    eexists None, _, _. split; [done|]. repeat split; try done. apply keeps_refl.
  - rewrite process_file_empty_content by done.
    eexists None, _, _. split; [done|]. repeat split; try done. apply keeps_refl.
  - rewrite process_file_no_chinese_words by done.
    eexists None, _, _. split; [done|]. repeat split; try done. apply keeps_refl.
  - rewrite (process_file_unexpected _ _ _ _ e) by done.
    eexists None, _, _. split; [done|]. repeat split; try done. apply keeps_refl.
  - rewrite (process_file_success _ _ _ _ _ _ Hwords Hmk).
    destruct (mkdir_p_keeps _ _ _ _ Hmk) as (_ & Hkeep & _).
    destruct (output_path_of_free (fs w1) output_dir f) as [Hfree _].
    eexists (Some _), _, _. split; [done|]. simpl.
    split; [done|]. split; [done|]. split; [done|]. split; [done|]. split.
    { eapply keeps_trans; [exact Hkeep|]. by apply keeps_insert_new. }
    split.
    { destruct (fs w !! output_path_of (fs w1) output_dir f) as [x|] eqn:Hx; [|done].
      apply Hkeep in Hx. congruence. }
    split; [|done]. split; [done|]. simpl.
    apply word_list_file_written. intros x Hx.
    destruct Hwords as (raw & _ & _ & -> & _).
    by apply extract_chinese_words_pure in Hx.
Qed.

Lemma separate_round_spec (output_dir f : path) (results : list result) (d : dict)
    (w : world) :
  exists r d' w' msgs,
    separate_round cut output_dir f (results, d) w = (Val (results ++ option_list r, d'), w')
    /\ console w' = console w ++ msgs
    /\ omap about msgs = [f]
    /\ length (List.filter reports_success msgs) = length (option_list r)
    /\ omap processed_path msgs = map (fun res => fst (fst res)) (option_list r)
    /\ keeps (fs w) (fs w')
    /\ match r with
       | None => fs w' = fs w
       | Some res =>
           fs w !! fst (fst res) = None /\ written (fs w') res
           /\ has_words cut w f (snd res)
       end.
Proof.
  unfold separate_round.
  set (w0 := if dict_contains d (name f) then printed w [MsgSameName f] else w).
  assert (exists pre, omap about pre = [] /\ List.filter reports_success pre = []
            /\ omap processed_path pre = []
            /\ w0 = printed w pre
            /\ (if dict_contains d (name f) then print (MsgSameName f) else ret tt) w
               = (Val tt, w0)) as (pre & Hpre & Hpre' & Hpre'' & Hw0 & Hfirst).
  { unfold w0. destruct (dict_contains d (name f)).
    - by exists [MsgSameName f].
    - exists []. by rewrite printed_nil. }
  rewrite (bind_val _ _ _ _ _ Hfirst).
  destruct (process_file_summary f output_dir w0)
    as (r & w' & msgs & Hpf & Hconsole & Habout & Hcount & Hpaths & Hkeep & Hr).
  rewrite (bind_val _ _ _ _ _ Hpf).
  assert (fs w0 = fs w) as Hfs by by rewrite Hw0.
  assert (forall words, has_words cut w0 f words -> has_words cut w f words) as Hsame.
  { intros words (raw & Hraw & H). exists raw. by rewrite <- Hfs. }
  exists r. destruct r as [res|].
  - eexists _, w', (pre ++ msgs). split; [done|].
    split; [by rewrite Hconsole, Hw0; simpl; rewrite app_assoc|].
    split; [by rewrite omap_app, Hpre, Habout|].
    split; [by rewrite List.filter_app, Hpre'|].
    split; [by rewrite omap_app, Hpre'', Hpaths|].
    rewrite <- Hfs. split; [done|]. destruct Hr as (? & ? & ?). auto.
  - eexists d, w', (pre ++ msgs). split; [by rewrite app_nil_r|].
    split; [by rewrite Hconsole, Hw0; simpl; rewrite app_assoc|].
    split; [by rewrite omap_app, Hpre, Habout|].
    split; [by rewrite List.filter_app, Hpre'|].
    split; [by rewrite omap_app, Hpre'', Hpaths|].
    rewrite <- Hfs. split; done.
Qed.

Lemma extracted_from_more (m m' : gmap path node) (files files' : list path) (r : result) :
  keeps m m' -> files' ⊆ files ->
  extracted_from cut m' files' r -> extracted_from cut m files r.
Proof.
  intros Hkeep Hsub (f & w1 & Hf & Hkeep' & Hwords). exists f, w1.
  split; [by apply Hsub|]. split; [by eapply keeps_trans|done].
Qed.

Lemma separate_loop_spec (output_dir : path) (files : list path) (results : list result)
    (d : dict) (w : world) :
  exists new d' w' msgs,
    for_each files (separate_round cut output_dir) (results, d) w
    = (Val (results ++ new, d'), w')
    /\ console w' = console w ++ msgs
    /\ omap about msgs = files
    /\ length (List.filter reports_success msgs) = length new
    /\ omap processed_path msgs = map (fun res => fst (fst res)) new
    /\ keeps (fs w) (fs w')
    /\ Forall (written (fs w')) new
    /\ Forall (fun r => fs w !! fst (fst r) = None) new
    /\ Forall (extracted_from cut (fs w) files) new.
Proof.
  revert results d w. induction files as [|f files IH]; intros results d w; simpl.
  - exists [], d, w, []. rewrite !app_nil_r. repeat split; try done. apply keeps_refl.
  - destruct (separate_round_spec output_dir f results d w)
      as (r & d1 & w1 & msgs1 & Hround & Hconsole1 & Habout1 & Hcount1 & Hpaths1
          & Hkeep1 & Hr).
    rewrite (bind_val _ _ _ _ _ Hround).
    destruct (IH (results ++ option_list r) d1 w1)
      as (new & d' & w' & msgs & -> & Hconsole & Habout & Hcount & Hpaths & Hkeep
          & Hnew & Hfresh & Hfrom).
    exists (option_list r ++ new), d', w', (msgs1 ++ msgs).
    split; [by rewrite app_assoc|].
    split; [by rewrite Hconsole, Hconsole1, app_assoc|].
    split; [by rewrite omap_app, Habout1, Habout|].
    split; [by rewrite List.filter_app, !length_app, Hcount1, Hcount|].
    split; [by rewrite omap_app, map_app, Hpaths1, Hpaths|].
    split; [by eapply keeps_trans|].
    split; [|split].
    + apply Forall_app. split; [|done].
      destruct r as [res|]; [|constructor].
      constructor; [|constructor]. destruct Hr as (_ & Hres & _).
      by eapply written_kept.
    + apply Forall_app. split.
      * destruct r as [res|]; [|constructor].
        constructor; [|constructor]. by destruct Hr.
      * eapply Forall_impl; [exact Hfresh|]. intros res Hres. simpl in Hres.
        destruct (fs w !! res.1.1) as [x|] eqn:Hx; [|done].
        apply Hkeep1 in Hx. congruence.
    + apply Forall_app. split.
      * destruct r as [res|]; [|constructor].
        constructor; [|constructor]. destruct Hr as (_ & _ & Hwords).
        exists f, w. split; [apply list_elem_of_here|]. split; [apply keeps_refl|done].
      * eapply Forall_impl; [exact Hfrom|]. intros res.
        apply extracted_from_more; [done|]. intros x Hx. by apply list_elem_of_further.
Qed.

Lemma process_directory_separate_spec (files : list path) (output_dir : path) (w : world) :
  exists results w' msgs,
    process_directory_separate cut files output_dir w = (Val results, w')
    /\ console w' = console w ++ msgs
    /\ omap about msgs = files
    /\ length (List.filter reports_success msgs) = length results
    /\ omap processed_path msgs = map (fun res => fst (fst res)) results
    /\ keeps (fs w) (fs w')
    /\ Forall (written (fs w')) results
    /\ Forall (fun r => fs w !! fst (fst r) = None) results
    /\ Forall (extracted_from cut (fs w) files) results.
Proof.
  unfold process_directory_separate.
  destruct (separate_loop_spec output_dir files [] [] w)
    as (new & d' & w' & msgs & Hloop & Hconsole & Habout & Hcount & Hpaths & Hkeep
        & Hnew & Hfresh & Hfrom).
  rewrite (bind_val _ _ _ _ _ Hloop). simpl.
  destruct (report_duplicates_prints MsgDuplicatesSeparate d' w')
    as (tail & Htail & Hdup); [done|].
  rewrite (bind_val _ _ _ _ _ Hdup).
  assert (List.filter reports_success tail = [] /\ omap processed_path tail = [])
    as [Htail1 Htail2].
  { clear -Htail. induction tail as [|msg tail IH]; [done|].
    csimpl in Htail. destruct msg; csimpl in *; try done; by apply IH. }
  exists new, (printed w' tail), (msgs ++ tail). split; [done|].
  split; [by simpl; rewrite Hconsole, app_assoc|].
  split; [by rewrite omap_app, Habout, Htail, app_nil_r|].
  split; [by rewrite List.filter_app, length_app, Hcount, Htail1; simpl; lia|].
  split; [by rewrite omap_app, Hpaths, Htail2, app_nil_r|].
  done.
Qed.

End Separate.

(** ** The output files and the reports of a batch *)

Section Batch.

Variable cut : pystr -> list pystr.

(** C2. After a run that succeeds, of [process_file], of
    [process_directory_merged] or of [process_directory_separate], every
    file it reports as written holds the words of its set, one per line,
    each line ended by a newline, each word once, in strictly ascending
    order of code points; the count reported is the size of the set; and
    the set is the one extracted: from the file for [process_file], from
    one of the files for each result of a separate run, the union over the
    files for a merged run. *)
Theorem output_files_sorted_unique (file_path directory_path : path)
    (files : list path) (output_dir : path) (w : world) :
  (forall res,
     fst (process_file cut file_path output_dir w) = Val (Some res) ->
     written (fs (snd (process_file cut file_path output_dir w))) res
     /\ has_words cut w file_path (snd res))
  /\ (forall results,
        fst (process_directory_merged cut directory_path files output_dir w) = Val results ->
        Forall (written (fs (snd (process_directory_merged cut directory_path files
                                    output_dir w)))) results
        /\ Forall (fun r => snd r = ⋃ (map (contribution cut w) files)) results)
  /\ (forall results,
        fst (process_directory_separate cut files output_dir w) = Val results ->
        Forall (written (fs (snd (process_directory_separate cut files output_dir w))))
          results
        /\ Forall (extracted_from cut (fs w) files) results).
Proof.
  split; [|split].
  - intros res Hres.
    destruct (process_file_summary cut file_path output_dir w)
      as (r & w' & msgs & Hpf & _ & _ & _ & _ & _ & Hr).
    rewrite Hpf in Hres |- *. simpl in Hres |- *. injection Hres as ->.
    by destruct Hr as (_ & ? & ?).
  - intros results Hres. apply process_directory_merged_result in Hres.
    destruct (decide (⋃ map (contribution cut w) files = ∅)).
    + destruct Hres as [-> _]. split; constructor.
    + destruct Hres as (-> & _ & _ & Hfile).
      split; (constructor; [|constructor]); [by split|done].
  - intros results Hres.
    destruct (process_directory_separate_spec cut files output_dir w)
      as (results' & w' & msgs & Hpds & _ & _ & _ & _ & _ & Hwritten & _ & Hfrom).
    rewrite Hpds in Hres |- *. simpl in Hres |- *. by injection Hres as <-.
Qed.




Lemma process_directory_merged_keeps (directory_path : path) (files : list path)
    (output_dir : path) (w : world) :
  keeps (fs w) (fs (snd (process_directory_merged cut directory_path files output_dir w))).
Proof.
  destruct (process_directory_merged_spec cut directory_path files output_dir w)
    as (reports & tail & _ & _ & ->).
  destruct (decide (⋃ map (contribution cut w) files = ∅)); [apply keeps_refl|].
  simpl. destruct (parent_ready _ _) as [[]|e]; [|apply keeps_refl].
  apply keeps_insert_new, merged_output_path_free.
Qed.


End Batch.

(** ** [main] *)

Section Main.

Variable cut : pystr -> list pystr.
Variable list_of_set : gset path -> list path.

Lemma main_directory (a : args) (w : world) :
  fs w !! args_path a = Some Dir ->
  main cut list_of_set a w
  = bind (process_directory cut list_of_set (args_path a) (args_output_dir a) (args_recursive a)
            (negb (args_no_merge a)))
      (fun results =>
         match results with
         | [] => print MsgNothingProcessed ;;; sys_exit 1
         | (output_path, total_words, _) :: _ =>
             (if negb (args_no_merge a)
              then
                print (MsgMainMerged (length results) total_words) ;;;
                print (MsgSavedTo output_path)
              else
                print (MsgMainSeparate (length results)
                         (list_sum (map (fun r => snd (fst r)) results))) ;;;
                print (MsgAllSavedTo (args_output_dir a))) ;;;
             ret None
         end)
      (printed w (directory_banner a)).
Proof.
  intros Hp. unfold main, bind at 1, get_fs. unfold path_exists, is_file, is_dir.
  rewrite Hp. cbv beta iota. unfold negb at 1. cbv iota.
  rewrite (bind_val _ _ _ _ tt (print_printed _ _)).
  unfold directory_banner.
  destruct (args_recursive a), (args_no_merge a); simpl negb; cbv iota;
    repeat (rewrite (bind_val _ _ _ _ tt (print_printed _ _)), ?printed_printed);
    try (rewrite (bind_val (ret tt) _ _ _ tt eq_refl)); 
    repeat (rewrite (bind_val _ _ _ _ tt (print_printed _ _)), ?printed_printed);
    reflexivity.
Qed.


End Main.


(** ** The order of the files *)

Section Discovery.

Variable cut : pystr -> list pystr.

Lemma process_directory_eq (list_of_set : gset path -> list path)
    (directory_path output_dir : path) (recursive merge_output : bool) (w : world) :
  process_directory cut list_of_set directory_path output_dir recursive merge_output w
  = match discover list_of_set (fs w) directory_path recursive with
    | [] => (Val [], printed w [MsgNoTextFiles directory_path])
    | f :: files =>
        bind (ensure_output_dir output_dir)
          (fun _ =>
             if merge_output
             then process_directory_merged cut directory_path (f :: files) output_dir
             else process_directory_separate cut (f :: files) output_dir)
          (printed w [MsgFound (length (f :: files))])
    end.
Proof.
  unfold process_directory, bind at 1, get_fs.
  by destruct (discover list_of_set (fs w) directory_path recursive).
Qed.

(** C10. The order in which a merged run takes the files does not show in
    what it writes: two runs from the same state over the same files in
    two orders return the same result and leave the same file system; two
    runs whose files bring the same sets of words, in any order, write
    the same text and return the same set; and so [process_directory], in
    merged mode, does not depend on the order in which the set of the
    files found is enumerated. *)
Theorem merged_output_order_independent :
  (forall directory_path files1 files2 output_dir w,
     files1 ≡ₚ files2 ->
     fst (process_directory_merged cut directory_path files1 output_dir w)
     = fst (process_directory_merged cut directory_path files2 output_dir w)
     /\ fs (snd (process_directory_merged cut directory_path files1 output_dir w))
        = fs (snd (process_directory_merged cut directory_path files2 output_dir w)))
  /\ (forall directory_path1 directory_path2 files1 files2 output_dir1 output_dir2 w1 w2
             p1 n1 words1 p2 n2 words2,
       map (contribution cut w1) files1 ≡ₚ map (contribution cut w2) files2 ->
       fst (process_directory_merged cut directory_path1 files1 output_dir1 w1)
       = Val [(p1, n1, words1)] ->
       fst (process_directory_merged cut directory_path2 files2 output_dir2 w2)
       = Val [(p2, n2, words2)] ->
       n1 = n2 /\ words1 = words2
       /\ fs (snd (process_directory_merged cut directory_path1 files1 output_dir1 w1)) !! p1
          = fs (snd (process_directory_merged cut directory_path2 files2 output_dir2 w2)) !! p2
       /\ fs (snd (process_directory_merged cut directory_path1 files1 output_dir1 w1)) !! p1
          = Some (File (Utf8Text (lines_text (sorted words1)))))
  /\ (forall (list_of_set1 list_of_set2 : gset path -> list path)
             directory_path output_dir recursive w,
       (forall s, list_of_set1 s ≡ₚ list_of_set2 s) ->
       fst (process_directory cut list_of_set1 directory_path output_dir recursive true w)
       = fst (process_directory cut list_of_set2 directory_path output_dir recursive true w)
       /\ fs (snd (process_directory cut list_of_set1 directory_path output_dir
                     recursive true w))
          = fs (snd (process_directory cut list_of_set2 directory_path output_dir
                       recursive true w))).
Proof.
  split; [|split].
  - intros directory_path files1 files2 output_dir w Hperm.
    apply process_directory_merged_union, contributions_Permutation.
    by rewrite Hperm.
  - intros directory_path1 directory_path2 files1 files2 output_dir1 output_dir2 w1 w2
      p1 n1 words1 p2 n2 words2 Hperm%contributions_Permutation Hres1 Hres2.
    apply process_directory_merged_result in Hres1, Hres2.
    rewrite <- Hperm in Hres2.
    destruct (decide (⋃ map (contribution cut w1) files1 = ∅)); [by destruct Hres1|].
    destruct Hres1 as ([= -> -> ->] & _ & -> & _).
    destruct Hres2 as ([= -> -> Hw] & _ & -> & _).
    split; [done|]. split; [done|]. by rewrite !lookup_insert_eq.
  - intros list_of_set1 list_of_set2 directory_path output_dir recursive w Hlist.
    rewrite !process_directory_eq.
    assert (discover list_of_set1 (fs w) directory_path recursive
            ≡ₚ discover list_of_set2 (fs w) directory_path recursive) as Hperm
      by apply Hlist.
    destruct (discover list_of_set1 (fs w) directory_path recursive) as [|f1 files1],
      (discover list_of_set2 (fs w) directory_path recursive) as [|f2 files2].
    + done.
    + by apply Permutation_nil_cons in Hperm.
    + symmetry in Hperm. by apply Permutation_nil_cons in Hperm.
    + rewrite (Permutation_length Hperm). unfold bind.
      destruct (ensure_output_dir output_dir (printed w [MsgFound (length (f2 :: files2))]))
        as [[x|e] w1]; [|done].
      apply process_directory_merged_union, contributions_Permutation.
      by rewrite Hperm.
Qed.

End Discovery.

(** * Further properties of the script *)

(** ** [is_chinese_word] and [extract_chinese_words] *)

(** X1. [is_chinese_word] accepts exactly the non-empty runs of characters
    of the three ranges, followed by nothing or by one final newline; so
    it rejects the empty string, and on a token that does not end with a
    newline it is the test its documentation describes. *)
Theorem is_chinese_word_exact (word : pystr) :
  (is_chinese_word word = true <->
     exists body, pure_chinese body /\ (word = body \/ word = body ++ [LF]))
  /\ is_chinese_word [] = false
  /\ (List.last word 0 <> LF -> (is_chinese_word word = true <-> pure_chinese word)).
Proof.
  split; [apply is_chinese_word_spec|]. split; [reflexivity|].
  intros Hlast. split; [|apply pure_chinese_is_chinese_word].
  intros (body & Hbody & [-> | ->])%is_chinese_word_spec; [done|].
  exfalso. apply Hlast. by rewrite last_last.
Qed.

Lemma size_add_le (X : gset pystr) (x : pystr) : (size (X ∪ {[x]}) <= S (size X))%nat.
Proof.
  rewrite size_union_alt.
  assert (size ({[x]} ∖ X) <= size ({[x]} : gset pystr))%nat as Hle.
  { apply subseteq_size. intros y Hy. apply elem_of_difference in Hy. tauto. }
  rewrite size_singleton in Hle. lia.
Qed.

Lemma size_extract_round (acc : gset pystr) (token : pystr) :
  (size (extract_round acc token) <= S (size acc))%nat.
Proof.
  unfold extract_round. destruct (strip token) as [|c s]; [lia|].
  destruct (is_chinese_word (c :: s)); [|lia]. apply size_add_le.
Qed.

Lemma size_extract_fold (tokens : list pystr) (acc : gset pystr) :
  (size (foldl extract_round acc tokens) <= size acc + length tokens)%nat.
Proof.
  revert acc. induction tokens as [|t tokens IH]; intros acc; simpl; [lia|].
  specialize (IH (extract_round acc t)).
  pose proof (size_extract_round acc t). lia.
Qed.

(** X2. [extract_chinese_words] looks at the tokens as a set: two
    segmentations of a text with the same tokens, in whatever order and
    however often, give the same words; and there are never more words
    than tokens. *)
Theorem extract_chinese_words_tokens (cut : pystr -> list pystr) (content : pystr) :
  (forall cut' : pystr -> list pystr,
     (forall token, token ∈ cut content <-> token ∈ cut' content) ->
     extract_chinese_words cut content = extract_chinese_words cut' content)
  /\ (size (extract_chinese_words cut content) <= length (cut content))%nat.
Proof.
  split.
  - intros cut' Hsame. apply set_eq. intros w.
    rewrite !elem_of_extract_chinese_words. split.
    + intros (Hne & token & Hin & Hkept). split; [done|].
      exists token. split; [by apply Hsame|done].
    + intros (Hne & token & Hin & Hkept). split; [done|].
      exists token. split; [by apply Hsame|done].
  - unfold extract_chinese_words. destruct content as [|c content].
    + rewrite size_empty. lia.
    + pose proof (size_extract_fold (cut (c :: content)) ∅) as Hle.
      rewrite size_empty in Hle. exact Hle.
Qed.

(** ** [ensure_output_dir] *)




Lemma mkdir_p_blocked (p : path) (w : world) :
  ~ creatable (fs w) p ->
  exists e, mkdir_p p w = (Exc e, w) /\ (e = FileExistsError \/ e = NotADirectoryError).
Proof.
  intros Hblocked. unfold mkdir_p, bind, get_fs.
  destruct (List.find (blocks_mkdir (fs w)) (ancestors_and_self p)) as [q|] eqn:Hfind.
  - unfold raise. destruct (decide (q = p)); eauto.
  - exfalso. apply Hblocked. intros q Hq. apply list_elem_of_In in Hq.
    by apply (List.find_none _ _ Hfind).
Qed.

Lemma creatable_find (m : gmap path node) (p : path) :
  creatable m p <-> List.find (blocks_mkdir m) (ancestors_and_self p) = None.
Proof.
  split.
  - intros Hfree.
    destruct (List.find (blocks_mkdir m) (ancestors_and_self p)) as [q|] eqn:Hfind; [|done].
    apply List.find_some in Hfind as [Hq Hblocks].
    apply list_elem_of_In in Hq. by rewrite (Hfree q Hq) in Hblocks.
  - intros Hfind q Hq. apply list_elem_of_In in Hq.
    by apply (List.find_none _ _ Hfind).
Qed.



(** ** The content of the output files *)

Lemma lines_text_chars (ls : list pystr) :
  Forall pure_chinese ls ->
  Forall (fun c => is_chinese_char c = true \/ c = LF) (lines_text ls).
Proof.
  induction 1 as [|word ls [_ Hword] _ IH]; [constructor|].
  unfold lines_text in *. simpl. rewrite <- app_assoc. apply Forall_app. split.
  - eapply Forall_impl; [exact Hword|]. by left.
  - constructor; [by right|exact IH].
Qed.

Lemma word_list_file_content (m : gmap path node) (p : path) (words : gset pystr) :
  word_list_file m p words -> (forall x, x ∈ words -> pure_chinese x) ->
  exists text,
    m !! p = Some (File (Utf8Text text))
    /\ Forall (fun c => is_chinese_char c = true \/ c = LF) text
    /\ snd (lines text) = []
    /\ length (fst (lines text)) = size words.
Proof.
  intros (ls & Hp & Hlines & _ & Hnd & Helem) Hpure. exists (lines_text ls).
  split; [done|]. split.
  - apply lines_text_chars, Forall_forall. intros x Hx. by apply Hpure, Helem.
  - rewrite Hlines. simpl. split; [done|].
    assert (ls ≡ₚ elements words) as Hperm.
    { apply NoDup_Permutation; [done|apply NoDup_elements|].
      intros x. by rewrite Helem, elem_of_elements. }
    by rewrite Hperm.
Qed.

Section Content.

Variable cut : pystr -> list pystr.

Lemma has_words_pure (w : world) (f : path) (words : gset pystr) (x : pystr) :
  has_words cut w f words -> x ∈ words -> pure_chinese x.
Proof. intros (raw & _ & _ & -> & _). apply extract_chinese_words_pure. Qed.

Lemma has_words_size (w : world) (f : path) (words : gset pystr) :
  has_words cut w f words -> (0 < size words)%nat.
Proof.
  intros (raw & _ & _ & _ & Hne).
  destruct (size words) as [|n] eqn:Hsize; [|lia].
  apply size_empty_iff in Hsize. exfalso. apply Hne. by apply leibniz_equiv.
Qed.

(** X4. The file [process_file] has written, and the file a merged run
    has written, is not empty, consists of Chinese characters and
    newlines only, ends with a newline, and has as many lines as the
    count returned with it. *)
Theorem output_file_content (file_path directory_path : path) (files : list path)
    (output_dir : path) (w : world) :
  (forall output_path n words,
     fst (process_file cut file_path output_dir w) = Val (Some (output_path, n, words)) ->
     exists text,
       fs (snd (process_file cut file_path output_dir w)) !! output_path
       = Some (File (Utf8Text text))
       /\ Forall (fun c => is_chinese_char c = true \/ c = LF) text
       /\ snd (lines text) = []
       /\ length (fst (lines text)) = n /\ (0 < n)%nat)
  /\ (forall output_path n words,
        fst (process_directory_merged cut directory_path files output_dir w)
        = Val [(output_path, n, words)] ->
        exists text,
          fs (snd (process_directory_merged cut directory_path files output_dir w))
            !! output_path = Some (File (Utf8Text text))
          /\ Forall (fun c => is_chinese_char c = true \/ c = LF) text
          /\ snd (lines text) = []
          /\ length (fst (lines text)) = n /\ (0 < n)%nat).
Proof.
  split.
  - intros output_path n words Hres.
    destruct (process_file_summary cut file_path output_dir w)
      as (r & w' & msgs & Hpf & _ & _ & _ & _ & _ & Hr).
    rewrite Hpf in Hres |- *. simpl in Hres |- *. injection Hres as ->.
    destruct Hr as (_ & [Hn Hfile] & Hwords). simpl in Hn, Hfile, Hwords.
    destruct (word_list_file_content _ _ _ Hfile) as (text & Hp & Hchars & Hend & Hlen).
    { intros x. by apply (has_words_pure w file_path words). }
    exists text. rewrite Hn, Hlen. repeat split; try done.
    by apply (has_words_size w file_path).
  - intros output_path n words Hres.
    apply process_directory_merged_result in Hres.
    destruct (decide (⋃ map (contribution cut w) files = ∅)) as [|Hsome];
      [by destruct Hres|].
    destruct Hres as ([= -> -> ->] & _ & _ & Hfile).
    destruct (word_list_file_content _ _ _ Hfile) as (text & Hp & Hchars & Hend & Hlen).
    { intros x. apply contributions_pure. }
    exists text. rewrite Hlen. repeat split; try done.
    destruct (size (⋃ map (contribution cut w) files)) as [|k] eqn:Hsize; [|lia].
    apply size_empty_iff in Hsize. exfalso. apply Hsome. by apply leibniz_equiv.
Qed.

End Content.

(** ** Runs with an output directory that can be made *)






Section Runs.

Variable cut : pystr -> list pystr.








End Runs.

(** ** More on separate mode *)

Section SeparateRuns.

Variable cut : pystr -> list pystr.

Lemma separate_round_eq (output_dir f : path) (results : list result) (d : dict)
    (w : world) :
  separate_round cut output_dir f (results, d) w
  = match process_file cut f output_dir
            (if dict_contains d (name f) then printed w [MsgSameName f] else w) with
    | (Val (Some res), w') =>
        (Val (results ++ [res], dict_set d (name f) (dict_get d (name f) 0 + 1)%nat), w')
    | (Val None, w') => (Val (results, d), w')
    | (Exc e, w') => (Exc e, w')
    end.
Proof.
  unfold separate_round, bind at 1.
  destruct (dict_contains d (name f)); simpl; unfold bind;
    by destruct (process_file cut f output_dir _) as [[[res|]|e] w'].
Qed.

Lemma for_each_cons {A S} (x : A) (xs : list A) (body : A -> S -> M S) (st : S)
    (w : world) :
  for_each (x :: xs) body st w
  = match body x st w with
    | (Val st', w') => for_each xs body st' w'
    | (Exc e, w') => (Exc e, w')
    end.
Proof. reflexivity. Qed.




(** X7. Separate mode on one file is [process_file] on that file: the
    same result, the same file system, the same messages. *)
Theorem separate_single_file (f output_dir : path) (w : world) :
  exists r w',
    process_file cut f output_dir w = (Val r, w')
    /\ process_directory_separate cut [f] output_dir w = (Val (option_list r), w').
Proof.
  destruct (process_file_summary cut f output_dir w) as (r & w' & msgs & Hpf & _).
  exists r, w'. split; [done|].
  unfold process_directory_separate, bind at 1.
  rewrite for_each_cons, separate_round_eq. simpl dict_contains. cbv iota. rewrite Hpf.
  destruct r as [res|]; unfold ret, bind; simpl; by destruct w'.
Qed.



End SeparateRuns.

(** ** The counts of file names *)

Lemma dict_get_set_eq (d : dict) (k : pystr) (v x : nat) :
  dict_get (dict_set d k v) k x = v.
Proof.
  induction d as [|[k' v'] d IH]; simpl.
  - by rewrite decide_True.
  - destruct (decide (k' = k)) as [->|Hne]; simpl.
    + by rewrite decide_True.
    + by rewrite decide_False.
Qed.

Lemma dict_get_set_ne (d : dict) (k k' : pystr) (v x : nat) :
  k <> k' -> dict_get (dict_set d k v) k' x = dict_get d k' x.
Proof.
  intros Hne. induction d as [|[k0 v0] d IH]; simpl.
  - by rewrite decide_False.
  - destruct (decide (k0 = k)) as [->|Hne0]; simpl.
    + by rewrite !decide_False.
    + destruct (decide (k0 = k')); [done|exact IH].
Qed.

Lemma dict_contains_keys (d : dict) (k : pystr) :
  dict_contains d k = true <-> k ∈ map fst d.
Proof.
  induction d as [|[k' v'] d IH]; simpl.
  - split; [done|]. by intros ?%elem_of_nil.
  - rewrite elem_of_cons. destruct (decide (k' = k)) as [->|Hne].
    + split; auto.
    + rewrite IH. split; [auto|]. by intros [?|?].
Qed.

Lemma dict_set_keys (d : dict) (k : pystr) (v : nat) :
  map fst (dict_set d k v)
  = if dict_contains d k then map fst d else map fst d ++ [k].
Proof.
  induction d as [|[k' v'] d IH]; simpl; [done|].
  destruct (decide (k' = k)) as [->|Hne]; simpl; [done|].
  rewrite IH. by destruct (dict_contains d k).
Qed.

Lemma dict_set_NoDup (d : dict) (k : pystr) (v : nat) :
  NoDup (map fst d) -> NoDup (map fst (dict_set d k v)).
Proof.
  intros Hnd. rewrite dict_set_keys.
  destruct (dict_contains d k) eqn:Hk; [done|].
  apply NoDup_app. split; [done|]. split; [|apply NoDup_singleton].
  intros x Hx Hxk. apply list_elem_of_singleton in Hxk as ->.
  apply dict_contains_keys in Hx. congruence.
Qed.

Lemma elem_of_dict (d : dict) (k : pystr) (c : nat) :
  NoDup (map fst d) ->
  ((k, c) ∈ d <-> k ∈ map fst d /\ dict_get d k 0%nat = c).
Proof.
  induction d as [|[k' v'] d IH]; simpl; intros Hnd.
  - split; [by intros ?%elem_of_nil|]. by intros [?%elem_of_nil _].
  - apply NoDup_cons in Hnd as [Hk' Hnd]. rewrite !elem_of_cons, (IH Hnd).
    destruct (decide (k' = k)) as [->|Hne].
    + split.
      * intros [[= ->]|[Hin _]]; [auto|done].
      * intros [_ ->]. by left.
    + split.
      * intros [[= -> _]|[Hin Hget]]; [done|auto].
      * intros [[->|Hin] Hget]; [done|auto].
Qed.

Lemma name_count_cons (f : path) (files : list path) (k : pystr) :
  name_count (f :: files) k
  = ((if decide (name f = k) then 1 else 0) + name_count files k)%nat.
Proof.
  unfold name_count. rewrite filter_cons. by destruct (decide (name f = k)).
Qed.

Lemma name_count_pos (files : list path) (k : pystr) :
  (0 < name_count files k)%nat <-> k ∈ map name files.
Proof.
  induction files as [|f files IH]; simpl.
  - split; [unfold name_count; simpl; lia|by intros ?%elem_of_nil].
  - rewrite name_count_cons, elem_of_cons. destruct (decide (name f = k)) as [->|Hne].
    + split; [auto|lia].
    + rewrite <- IH. split; [auto|]. intros [->|]; [done|lia].
Qed.

(** The dictionary of the loops counts the names. *)
Lemma count_names_spec (files : list path) (d : dict) :
  NoDup (map fst d) ->
  NoDup (map fst (count_names d files))
  /\ (forall k, dict_get (count_names d files) k 0%nat
                = (dict_get d k 0 + name_count files k)%nat)
  /\ (forall k, k ∈ map fst (count_names d files)
                <-> k ∈ map fst d \/ k ∈ map name files).
Proof.
  revert d. induction files as [|f files IH]; intros d Hnd; simpl.
  - split; [done|]. split.
    + intros k. unfold name_count. simpl. lia.
    + intros k. split; [auto|]. by intros [?|?%elem_of_nil].
  - destruct (IH (dict_set d (name f) (dict_get d (name f) 0 + 1)%nat))
      as (Hnd' & Hget & Hkeys); [by apply dict_set_NoDup|].
    split; [done|]. split.
    + intros k. rewrite Hget, name_count_cons.
      destruct (decide (name f = k)) as [->|Hne].
      * rewrite dict_get_set_eq. lia.
      * rewrite dict_get_set_ne by done. lia.
    + intros k. rewrite Hkeys, dict_set_keys, elem_of_cons.
      destruct (dict_contains d (name f)) eqn:Hf.
      * apply dict_contains_keys in Hf. split; [tauto|].
        intros [?|[->|?]]; auto.
      * rewrite elem_of_app, list_elem_of_singleton. split; [|tauto].
        intros [[?|?]|?]; auto.
Qed.

(** The names [report_duplicates] lists are those counted more than once. *)
Lemma elem_of_duplicate_report (header : nat -> message) (files : list path)
    (k : pystr) (c : nat) :
  (forall n, header n <> MsgDuplicate k c) ->
  MsgDuplicate k c ∈ duplicate_report header (count_names [] files)
  <-> c = name_count files k /\ (1 < c)%nat.
Proof.
  intros Hheader.
  destruct (count_names_spec files []) as (Hnd & Hget & Hkeys); [constructor|].
  assert ((k, c) ∈ duplicate_files (count_names [] files)
          <-> c = name_count files k /\ (1 < c)%nat) as Hdups.
  { unfold duplicate_files. rewrite list_elem_of_In, List.filter_In, <- list_elem_of_In.
    rewrite (elem_of_dict _ _ _ Hnd), Hget, Hkeys. simpl.
    rewrite Nat.ltb_lt, <- name_count_pos. split.
    - intros [[_ <-] Hc]. done.
    - intros [-> Hc]. split; [|done]. split; [right; lia|done]. }
  rewrite <- Hdups. unfold duplicate_report.
  destruct (duplicate_files (count_names [] files)) as [|kv dups].
  { split; by intros ?%elem_of_nil. }
  generalize (kv :: dups). intros l. rewrite elem_of_cons, list_elem_of_fmap. split.
  - intros [Heq|([k' c'] & [= -> ->] & Hin)]; [|done].
    symmetry in Heq. by apply Hheader in Heq.
  - intros Hin. right. by exists (k, c).
Qed.

Lemma report_duplicates_eq (header : nat -> message) (d : dict) (w : world) :
  report_duplicates header d w = (Val tt, printed w (duplicate_report header d)).
Proof.
  unfold report_duplicates, duplicate_report.
  destruct (duplicate_files d) as [|kv dups]; [by rewrite printed_nil|].
  generalize (kv :: dups). intros l.
  rewrite (bind_val _ _ _ _ tt (print_printed _ _)).
  change (header (length l) :: map (fun kv => MsgDuplicate kv.1 kv.2) l)
    with ([header (length l)] ++ map (fun kv => MsgDuplicate kv.1 kv.2) l).
  rewrite <- printed_printed. generalize (printed w [header (length l)]). clear.
  induction l as [|x l IH]; intros w; simpl.
  - by rewrite printed_nil.
  - rewrite (bind_val _ _ _ _ tt (print_printed _ _)), IH.
    by rewrite printed_printed.
Qed.

(** ** The summary of a merged run *)

Section MergedSummary.

Variable cut : pystr -> list pystr.

Lemma merged_round_state (f : path) (st : merged_state) (w : world) :
  exists msg,
    merged_report cut w f msg
    /\ merged_round cut f st w
       = (Val (if decide (contribution cut w f = ∅) then st
               else MergedState
                      (all_unique_words st ∪ contribution cut w f)
                      (dict_set (merged_processed_files st) (name f)
                         (dict_get (merged_processed_files st) (name f) 0 + 1)%nat)
                      (successful_files st + 1)%nat),
          printed w [msg]).
Proof.
  unfold merged_round, try_except, merged_report.
  destruct (read_text_cases f w) as [(raw & Hf & Hread)|[[Hf Hread]|(e & Hne & Hread)]].
  - rewrite (bind_val _ _ _ _ _ Hread). unfold contribution. rewrite Hf.
    destruct (strip raw) as [|c content] eqn:Hstrip.
    { exists (MsgEmptyFile f). split; [|done]. split; [done|]. split; [done|].
      by intros []. }
    destruct (decide (extract_chinese_words cut (c :: content) = ∅)) as [Hnone|Hsome].
    { exists (MsgNoChineseWords f). split; [|done]. split; [done|]. split; [done|].
      by intros []. }
    eexists (MsgFileDone f _). split; [|reflexivity]. split; [done|]. split; done.
  - rewrite (bind_exc _ _ _ _ _ Hread), (contribution_unread _ _ _ _ _ Hread).
    exists (MsgNotUtf8Skipped f). split; [|done]. split; [done|]. split; [done|].
    by intros [].
  - rewrite (bind_exc _ _ _ _ _ Hread), (contribution_unread _ _ _ _ _ Hread).
    exists (MsgException f e). split; [|by destruct e]. split; [done|]. split; [done|].
    by intros [].
Qed.

Lemma merged_loop_state (files : list path) (st : merged_state) (w : world) :
  exists msgs,
    Forall2 (merged_report cut w) files msgs
    /\ for_each files (merged_round cut) st w
       = (Val (MergedState
                 (all_unique_words st ∪ ⋃ (map (contribution cut w) files))
                 (count_names (merged_processed_files st) (with_words cut w files))
                 (successful_files st + length (with_words cut w files))%nat),
          printed w msgs).
Proof.
  revert st w. induction files as [|f files IH]; intros st w.
  - exists []. split; [constructor|]. simpl. unfold ret.
    rewrite printed_nil, (right_id_L ∅ (∪)), Nat.add_0_r. by destruct st.
  - rewrite for_each_cons.
    destruct (merged_round_state f st w) as (msg & Hreport & ->).
    destruct (IH (if decide (contribution cut w f = ∅) then st
                  else MergedState
                         (all_unique_words st ∪ contribution cut w f)
                         (dict_set (merged_processed_files st) (name f)
                            (dict_get (merged_processed_files st) (name f) 0 + 1)%nat)
                         (successful_files st + 1)%nat)
                (printed w [msg])) as (msgs & Hreports & ->).
    exists (msg :: msgs). split; [by constructor|]. rewrite printed_printed.
    change (contribution cut (printed w [msg])) with (contribution cut w).
    change (with_words cut (printed w [msg])) with (with_words cut w).
    unfold with_words at 3 4. rewrite filter_cons. fold (with_words cut w files).
    simpl map. simpl union_list.
    destruct (decide (contribution cut w f = ∅)) as [Hnone|Hsome].
    + rewrite decide_False by (by intros H; apply H).
      by rewrite Hnone, (left_id_L ∅ (∪)).
    + rewrite decide_True by done. simpl.
      rewrite (assoc_L (∪)).
      by replace (successful_files st + S (length (with_words cut w files)))%nat
        with (successful_files st + 1 + length (with_words cut w files))%nat by lia.
Qed.

(** All that a merged run that writes does. *)
Lemma process_directory_merged_writes (directory_path : path) (files : list path)
    (output_dir : path) (w : world) :
  ⋃ (map (contribution cut w) files) <> ∅ ->
  (output_dir <> [] -> fs w !! output_dir = Some Dir) ->
  exists reports,
    Forall2 (merged_report cut w) files reports
    /\ process_directory_merged cut directory_path files output_dir w
       = (Val [(merged_output_path (fs w) directory_path output_dir,
                size (⋃ (map (contribution cut w) files)),
                ⋃ (map (contribution cut w) files))],
          World (<[merged_output_path (fs w) directory_path output_dir
                   := File (Utf8Text (lines_text
                                        (sorted (⋃ (map (contribution cut w) files)))))]>
                   (fs w))
                (console w
                 ++ MsgMergeMode :: reports
                 ++ [MsgMergeDone;
                     MsgSuccessful (length (with_words cut w files)) (length files);
                     MsgMergedWordCount (size (⋃ (map (contribution cut w) files)));
                     MsgOutputFile (merged_output_path (fs w) directory_path output_dir)]
                 ++ duplicate_report MsgDuplicatesMerged
                      (count_names [] (with_words cut w files)))).
Proof.
  intros Hsome Hdir. unfold process_directory_merged.
  rewrite (bind_val _ _ _ _ tt (print_printed _ _)).
  destruct (merged_loop_state files (MergedState ∅ [] 0) (printed w [MsgMergeMode]))
    as (reports & Hreports & Hloop).
  rewrite (bind_val _ _ _ _ _ Hloop), printed_printed. exists reports.
  split; [exact Hreports|].
  change (contribution cut (printed w [MsgMergeMode])) with (contribution cut w).
  change (with_words cut (printed w [MsgMergeMode])) with (with_words cut w).
  simpl all_unique_words. simpl merged_processed_files. simpl successful_files.
  rewrite (left_id_L ∅ (∪)). unfold merged_finish. simpl all_unique_words.
  rewrite decide_False by done.
  unfold bind at 1, get_fs.
  fold (merged_output_path (fs (printed w ([MsgMergeMode] ++ reports)))
          directory_path output_dir).
  change (fs (printed w ([MsgMergeMode] ++ reports))) with (fs w).
  destruct (merged_output_path_free (fs w) directory_path output_dir) as [Hfree Hparent].
  unfold bind at 1. rewrite write_words_free by exact Hfree.
  change (fs (printed w ([MsgMergeMode] ++ reports))) with (fs w).
  rewrite parent_ready_dir by (by rewrite Hparent).
  do 4 (unfold bind at 1; rewrite print_printed, ?printed_printed).
  unfold bind at 1. rewrite report_duplicates_eq, printed_printed.
  unfold ret, printed. simpl. by rewrite <- !app_assoc.
Qed.


(** X10. After a merged run that writes, a notice of duplicate names is
    printed for a name exactly when two or more of the files that brought
    words have that name, and the notice gives their number. *)
Theorem merged_duplicate_names (directory_path : path) (files : list path)
    (output_dir : path) (w : world) :
  ⋃ (map (contribution cut w) files) <> ∅ ->
  (output_dir <> [] -> fs w !! output_dir = Some Dir) ->
  exists msgs,
    console (snd (process_directory_merged cut directory_path files output_dir w))
    = console w ++ msgs
    /\ forall k c,
         MsgDuplicate k c ∈ msgs
         <-> c = name_count (with_words cut w files) k /\ (1 < c)%nat.
Proof.
  intros Hsome Hdir.
  destruct (process_directory_merged_writes directory_path files output_dir w Hsome Hdir)
    as (reports & Hreports & ->).
  eexists. split; [reflexivity|]. intros k c.
  rewrite <- (elem_of_duplicate_report MsgDuplicatesMerged) by done.
  rewrite elem_of_cons, !elem_of_app. split; [|auto].
  intros [?|[Hin|[Hin|?]]]; [done| | |done].
  - exfalso. clear -Hin Hreports.
    induction Hreports as [|f msg files reports [Hf _] _ IH]; [by apply elem_of_nil in Hin|].
    apply elem_of_cons in Hin as [<-|Hin]; [done|by apply IH].
  - exfalso. repeat (apply elem_of_cons in Hin as [?|Hin]; [done|]).
    by apply elem_of_nil in Hin.
Qed.

End MergedSummary.

(** ** The files of a directory *)




(** ** [process_directory] and [main] on a directory *)

Section Directory.

Variable cut : pystr -> list pystr.
Variable list_of_set : gset path -> list path.

Lemma process_directory_keeps (directory_path output_dir : path)
    (recursive merge_output : bool) (w : world) :
  keeps (fs w)
    (fs (snd (process_directory cut list_of_set directory_path output_dir recursive
                merge_output w))).
Proof.
  rewrite process_directory_eq.
  destruct (discover list_of_set (fs w) directory_path recursive) as [|f files];
    [apply keeps_refl|].
  unfold ensure_output_dir, bind.
  destruct (mkdir_p output_dir (printed w [MsgFound (length (f :: files))]))
    as [[[]|e] w1] eqn:Hmk.
  - destruct (mkdir_p_keeps _ _ _ _ Hmk) as (_ & Hkeep & _). unfold ret.
    eapply keeps_trans; [exact Hkeep|]. destruct merge_output.
    + apply process_directory_merged_keeps.
    + destruct (process_directory_separate_spec cut (f :: files) output_dir w1)
        as (results & w' & msgs & -> & _ & _ & _ & _ & Hkeep' & _). exact Hkeep'.
  - apply mkdir_p_raises in Hmk as ->. apply keeps_refl.
Qed.

(** X12. Whatever its arguments and whatever it finds, the tool only
    adds to the file system: after [process_directory], and after [main],
    every file and every directory that existed is still there, with the
    content it had. *)
Theorem main_only_adds (a : args) (directory_path output_dir : path)
    (recursive merge_output : bool) (w : world) :
  keeps (fs w) (fs (snd (main cut list_of_set a w)))
  /\ keeps (fs w)
       (fs (snd (process_directory cut list_of_set directory_path output_dir recursive
                   merge_output w))).
Proof.
  split; [|apply process_directory_keeps].
  destruct (fs w !! args_path a) as [[|data|]|] eqn:Hp.
  - rewrite (main_directory _ _ _ _ Hp). unfold bind.
    pose proof (process_directory_keeps (args_path a) (args_output_dir a)
                  (args_recursive a) (negb (args_no_merge a))
                  (printed w (directory_banner a))) as Hkeep.
    destruct (process_directory cut list_of_set (args_path a) (args_output_dir a)
                (args_recursive a) (negb (args_no_merge a))
                (printed w (directory_banner a)))
      as [[[|[[p n] words] results]|e] w']; [done| |done].
    by destruct (negb (args_no_merge a)).
  - rewrite (main_file _ _ _ _ _ Hp). unfold bind.
    destruct (process_file_summary cut (args_path a) (args_output_dir a)
                (printed w [MsgStartFile (args_path a)]))
      as ([res|] & w' & msgs & -> & _ & _ & _ & _ & Hkeep & _); exact Hkeep.
  - rewrite (main_other _ _ _ _ Hp). apply keeps_refl.
  - rewrite (main_missing _ _ _ _ Hp). apply keeps_refl.
Qed.

(** X13. A directory in which no supported text file is found:
    [process_directory] warns, returns no result and does not make the
    output directory; [main] then exits with status 1, the file system as
    it was. *)
Theorem directory_without_text_files (a : args) (w : world) :
  fs w !! args_path a = Some Dir ->
  discover list_of_set (fs w) (args_path a) (args_recursive a) = [] ->
  (forall output_dir merge_output,
     process_directory cut list_of_set (args_path a) output_dir (args_recursive a)
       merge_output w
     = (Val [], printed w [MsgNoTextFiles (args_path a)]))
  /\ main cut list_of_set a w
     = (Val (Some 1),
        printed w (directory_banner a
                   ++ [MsgNoTextFiles (args_path a); MsgNothingProcessed])).
Proof.
  intros Hp Hnone. split.
  - intros output_dir merge_output. by rewrite process_directory_eq, Hnone.
  - rewrite (main_directory _ _ _ _ Hp). unfold bind.
    rewrite process_directory_eq.
    change (fs (printed w (directory_banner a))) with (fs w). rewrite Hnone.
    rewrite print_printed, !printed_printed. reflexivity.
Qed.

(** X14. A directory run whose output directory cannot be made, because
    the path or an ancestor of it is a file: once a text file is found,
    [process_directory] raises before it reads any file, and [main] does
    not catch the exception; nothing is written. *)
Theorem directory_output_blocked (a : args) (w : world) :
  fs w !! args_path a = Some Dir ->
  discover list_of_set (fs w) (args_path a) (args_recursive a) <> [] ->
  ~ creatable (fs w) (args_output_dir a) ->
  exists e,
    (e = FileExistsError \/ e = NotADirectoryError)
    /\ fst (main cut list_of_set a w) = Exc e
    /\ fs (snd (main cut list_of_set a w)) = fs w
    /\ omap about (console (snd (main cut list_of_set a w))) = omap about (console w).
Proof.
  intros Hp Hsome Hblocked.
  rewrite (main_directory _ _ _ _ Hp). unfold bind. rewrite process_directory_eq.
  change (fs (printed w (directory_banner a))) with (fs w).
  destruct (discover list_of_set (fs w) (args_path a) (args_recursive a)) as [|f files];
    [done|].
  unfold ensure_output_dir, bind.
  destruct (mkdir_p_blocked (args_output_dir a)
              (printed (printed w (directory_banner a)) [MsgFound (length (f :: files))])
              Hblocked) as (e & -> & Hkind).
  exists e. split; [done|]. split; [done|]. split; [done|].
  simpl. rewrite !omap_app.
  assert (omap about (directory_banner a) = []) as ->.
  { unfold directory_banner. by destruct (args_recursive a), (args_no_merge a). }
  by rewrite !app_nil_r.
Qed.







(** X18. Flags without effect. The verbose flag is read nowhere: with
    it or without it [main] does the same. And unless the path is a
    directory, the recursive flag and the no-merge flag change nothing
    either. *)
Theorem flags_without_effect (a : args) (recursive no_merge verbose : bool) (w : world) :
  main cut list_of_set
    (Args (args_path a) (args_output_dir a) (args_recursive a) (args_no_merge a) verbose) w
  = main cut list_of_set a w
  /\ (is_dir (fs w) (args_path a) = false ->
      main cut list_of_set
        (Args (args_path a) (args_output_dir a) recursive no_merge verbose) w
      = main cut list_of_set a w).
Proof.
  split; [by destruct a|]. intros Hdir.
  set (a' := Args (args_path a) (args_output_dir a) recursive no_merge verbose).
  unfold is_dir in Hdir.
  destruct (fs w !! args_path a) as [[|data|]|] eqn:Hp.
  - done.
  - by rewrite (main_file cut list_of_set a w data Hp),
      (main_file cut list_of_set a' w data Hp).
  - by rewrite (main_other cut list_of_set a w Hp), (main_other cut list_of_set a' w Hp).
  - by rewrite (main_missing cut list_of_set a w Hp), (main_missing cut list_of_set a' w Hp).
Qed.

End Directory.

(** ** The script on the examples *)

(** "你好,hello,世界!你好" gives the two lines 世界 and 你好. *)
Example process_file_demo :
  fs (snd (process_file demo_cut demo_input demo_output_dir demo_world))
    !! [lit "raw"; lit "a_segmented.txt"]
  = Some (File (Utf8Text [0x4e16; 0x754c; LF; 0x4f60; 0x597d; LF])).
Proof. vm_compute. reflexivity. Qed.

(** Two files that share 测试 and have 甲 and 乙 apart, and one file that
    cannot be decoded: the merged list is 乙, 测试, 甲. *)
Example process_directory_merged_demo :
  fs (snd (process_directory_merged demo_cut demo_directory [demo_a; demo_c; demo_b]
             demo_output_dir demo_directory_world))
    !! [lit "raw"; lit "d_merged_segmented.txt"]
  = Some (File (Utf8Text [0x4e59; LF; 0x6d4b; 0x8bd5; LF; 0x7532; LF])).
Proof. vm_compute. reflexivity. Qed.

(** A second run in separate mode numbers its files. *)
Example process_directory_separate_demo :
  map (fun r => fst (fst r))
    (match fst (process_directory_separate demo_cut [demo_a; demo_c; demo_b] demo_output_dir
                  (snd (process_directory_separate demo_cut [demo_a; demo_c; demo_b]
                          demo_output_dir demo_directory_world))) with
     | Val results => results
     | Exc _ => []
     end)
  = [[lit "raw"; lit "a_segmented_1.txt"]; [lit "raw"; lit "b_segmented_1.txt"]].
Proof. vm_compute. reflexivity. Qed.



Lemma empty_file_no_output_witness :
  fst (process_file demo_cut demo_blank demo_output_dir demo_blank_world) = Val None
  /\ fs (snd (process_file demo_cut demo_blank demo_output_dir demo_blank_world))
     = fs demo_blank_world
  /\ exit_status (fst (main demo_cut elements demo_blank_args demo_blank_world)) = 1
  /\ fs (snd (main demo_cut elements demo_blank_args demo_blank_world)) = fs demo_blank_world.
Proof.
  apply (empty_file_no_output demo_cut elements demo_blank_args demo_blank_world).
  exists (lit "  " ++ [LF]). split; reflexivity.
Defined.



Lemma output_files_sorted_unique_witness :
  exists res,
    fst (process_file demo_cut demo_input demo_output_dir demo_world) = Val (Some res)
    /\ written (fs (snd (process_file demo_cut demo_input demo_output_dir demo_world))) res.
Proof.
  assert (match fst (process_file demo_cut demo_input demo_output_dir demo_world) with
          | Val (Some _) => true
          | _ => false
          end = true) as Hb.
  { vm_compute. reflexivity. }
  destruct (fst (process_file demo_cut demo_input demo_output_dir demo_world))
    as [[res|]|e] eqn:Hres; try discriminate Hb.
  exists res. split; [reflexivity|].
  exact (proj1 (proj1 (output_files_sorted_unique demo_cut demo_input [] [] demo_output_dir
                         demo_world) res Hres)).
Defined.

Lemma merged_words_are_union_witness :
  exists p,
    fst (process_directory_merged demo_cut demo_directory [demo_a; demo_c; demo_b]
           demo_output_dir demo_directory_world)
    = Val [(p,
            size (⋃ (map (contribution demo_cut demo_directory_world)
                       [demo_a; demo_c; demo_b])),
            ⋃ (map (contribution demo_cut demo_directory_world)
                 [demo_a; demo_c; demo_b]))].
Proof.
  apply (merged_words_are_union demo_cut demo_directory [demo_a; demo_c; demo_b]
           demo_output_dir demo_directory_world).
  - intros H. apply (f_equal size) in H. vm_compute in H. discriminate H.
  - intros _. vm_compute. reflexivity.
Defined.


Lemma merged_output_order_independent_witness :
  fst (process_directory_merged demo_cut demo_directory [demo_a; demo_b]
         demo_output_dir demo_directory_world)
  = fst (process_directory_merged demo_cut demo_directory [demo_b; demo_a]
           demo_output_dir demo_directory_world)
  /\ fs (snd (process_directory_merged demo_cut demo_directory [demo_a; demo_b]
                demo_output_dir demo_directory_world))
     = fs (snd (process_directory_merged demo_cut demo_directory [demo_b; demo_a]
                  demo_output_dir demo_directory_world)).
Proof.
  apply (proj1 (merged_output_order_independent demo_cut)). apply perm_swap.
Defined.

(** ** The further properties on the examples *)




Lemma merged_duplicate_names_witness :
  exists msgs,
    console (snd (process_directory_merged demo_cut demo_directory [demo_a; demo_nested]
                    demo_output_dir demo_nested_world))
    = console demo_nested_world ++ msgs
    /\ MsgDuplicate (lit "a.txt") 2 ∈ msgs.
Proof.
  destruct (merged_duplicate_names demo_cut demo_directory [demo_a; demo_nested]
              demo_output_dir demo_nested_world)
    as (msgs & Hconsole & Hdup).
  - intros H. apply (f_equal size) in H. vm_compute in H. discriminate H.
  - intros _. vm_compute. reflexivity.
  - exists msgs. split; [exact Hconsole|]. apply Hdup.
    split; [vm_compute; reflexivity|]. apply le_n.
Defined.


Lemma directory_without_text_files_witness :
  main demo_cut elements demo_merged_args demo_pictures_world
  = (Val (Some 1),
     printed demo_pictures_world
       (directory_banner demo_merged_args
        ++ [MsgNoTextFiles (args_path demo_merged_args); MsgNothingProcessed])).
Proof.
  apply (directory_without_text_files demo_cut elements demo_merged_args
           demo_pictures_world).
  - vm_compute. reflexivity.
  - vm_compute. reflexivity.
Defined.

Lemma directory_output_blocked_witness :
  exists e,
    fst (main demo_cut elements demo_merged_args demo_blocked_world) = Exc e
    /\ fs (snd (main demo_cut elements demo_merged_args demo_blocked_world))
       = fs demo_blocked_world.
Proof.
  destruct (directory_output_blocked demo_cut elements demo_merged_args demo_blocked_world)
    as (e & _ & Hexc & Hfs & _).
  - vm_compute. reflexivity.
  - intros H. vm_compute in H. discriminate H.
  - intros H. apply creatable_find in H. vm_compute in H. discriminate H.
  - exists e. split; [exact Hexc|exact Hfs].
Defined.




Lemma output_file_content_witness :
  exists output_path n words text,
    fst (process_file demo_cut demo_input demo_output_dir demo_world)
    = Val (Some (output_path, n, words))
    /\ fs (snd (process_file demo_cut demo_input demo_output_dir demo_world)) !! output_path
       = Some (File (Utf8Text text))
    /\ snd (lines text) = []
    /\ length (fst (lines text)) = n.
Proof.
  assert (match fst (process_file demo_cut demo_input demo_output_dir demo_world) with
          | Val (Some _) => true
          | _ => false
          end = true) as Hb.
  { vm_compute. reflexivity. }
  destruct (fst (process_file demo_cut demo_input demo_output_dir demo_world))
    as [[[[output_path n] words]|]|e] eqn:Hres; try discriminate Hb.
  destruct (proj1 (output_file_content demo_cut demo_input demo_directory [] demo_output_dir
                     demo_world) output_path n words Hres)
    as (text & Hfile & _ & Hend & Hlines & _).
  exists output_path, n, words, text. split; [reflexivity|]. split; [exact Hfile|].
  split; [exact Hend|exact Hlines].
Defined.
